(** * DEST (Deformable Shape Tracking): rectangle generation and training-data
    interface

    A shallow embedding of [examples/dest_generate_rects_viola_jones.cpp] and
    of the declarations of [dest/core/training_data.h].

    Single-precision [float] values are IEEE 754 binary32 numbers, taken from
    the Standard Library's executable specification [SpecFloat] at precision
    24 and maximal exponent 128 (round to nearest, ties to even).  Eigen
    matrices of fixed size are records, matrices with a dynamic number of
    columns are lists of columns, [std::vector] is [list]. *)

From Stdlib Require Import ZArith Lia Bool.
From Stdlib Require Import Floats.SpecFloat.
From stdpp Require Import base list.

Open Scope Z_scope.

(** ** binary32 arithmetic *)

Module F32.

Definition prec : Z := 24.
Definition emax : Z := 128.

Definition float : Type := spec_float.

Definition add : float -> float -> float := SFadd prec emax.
Definition sub : float -> float -> float := SFsub prec emax.
Definition mul : float -> float -> float := SFmul prec emax.
Definition div : float -> float -> float := SFdiv prec emax.

(** [x < y], [x <= y]; both are false as soon as one side is NaN.  The C++
    tests [x > y] and [x >= y] are [ltb y x] and [leb y x]. *)
Definition ltb : float -> float -> bool := SFltb.
Definition leb : float -> float -> bool := SFleb.

(** Conversion of an integer, [(float)n]. *)
Definition of_Z (n : Z) : float := binary_normalize prec emax n 0 false.

Definition valid (x : float) : bool := valid_binary prec emax x.

Definition is_nan (x : float) : bool :=
  match x with S754_nan => true | _ => false end.

Definition is_inf (x : float) : bool :=
  match x with S754_infinity _ => true | _ => false end.

(** The literals of the program. *)
Definition zero : float := S754_zero false.                 (* 0.f  *)
Definition one : float := S754_finite false 8388608 (-23).  (* 1.f *)
Definition f0_3 : float := S754_finite false 10066330 (-25).  (* 0.3f  *)
Definition f1_25 : float := S754_finite false 10485760 (-23). (* 1.25f *)
Definition fm0_01 : float := S754_finite true 10737418 (-30). (* -0.01f *)
Definition fm0_05 : float := S754_finite true 13421773 (-28). (* -0.05f *)
Definition f0_1 : float := S754_finite false 13421773 (-27).  (* 0.1f *)

Definition pinf : float := S754_infinity false.
Definition nan : float := S754_nan.

End F32.

Abbreviation float := F32.float.

(** ** Eigen vectors and matrices *)

(** [Eigen::Vector2f]. *)
Definition Vector2f : Type := float * float.

(** [dest::core::Rect], a 2x4 matrix of floats: four corner columns. *)
Record Rect : Type := mkRect {
  rcol0 : Vector2f; rcol1 : Vector2f; rcol2 : Vector2f; rcol3 : Vector2f
}.

(** [dest::core::Shape], a 2xN matrix of floats: one column per landmark. *)
Definition Shape : Type := list Vector2f.

(** [Eigen::AffineCompact2f], the 2x3 matrix [linear | translation]. *)
Record AffineCompact2f : Type := mkAffine {
  a00 : float; a01 : float; a02 : float;
  a10 : float; a11 : float; a12 : float
}.

(** [u - v] on vectors. *)
Definition vsub (u v : Vector2f) : Vector2f :=
  (F32.sub (fst u) (fst v), F32.sub (snd u) (snd v)).

(** [(a.array() >= 0.f).all()] and [(b.array() <= 0.f).all()]. *)
Definition all_ge0 (a : Vector2f) : bool :=
  F32.leb F32.zero (fst a) && F32.leb F32.zero (snd a).
Definition all_le0 (b : Vector2f) : bool :=
  F32.leb (fst b) F32.zero && F32.leb (snd b) F32.zero.

Definition rect_map (f : Vector2f -> Vector2f) (r : Rect) : Rect :=
  mkRect (f (rcol0 r)) (f (rcol1 r)) (f (rcol2 r)) (f (rcol3 r)).

(** [r / c], the coefficient-wise quotient of a matrix by a scalar. *)
Definition rect_div (r : Rect) (c : float) : Rect :=
  rect_map (fun p => (F32.div (fst p) c, F32.div (snd p) c)) r.

(** [Eigen::Translation2f(tx, ty) * Eigen::Scaling(s)]: the linear part is
    [s] on the diagonal and zero elsewhere, the last column is [(tx, ty)]. *)
Definition translation_times_scaling (tx ty s : float) : AffineCompact2f :=
  mkAffine s F32.zero tx
           F32.zero s ty.

(** One column of [t * r.colwise().homogeneous()]: the linear part times the
    column, then the translation added. *)
Definition affine_apply_col (t : AffineCompact2f) (p : Vector2f) : Vector2f :=
  (F32.add (F32.add (F32.mul (a00 t) (fst p)) (F32.mul (a01 t) (snd p))) (a02 t),
   F32.add (F32.add (F32.mul (a10 t) (fst p)) (F32.mul (a11 t) (snd p))) (a12 t)).

Definition affine_apply (t : AffineCompact2f) (r : Rect) : Rect :=
  rect_map (affine_apply_col t) r.

(** ** Machine integers *)

(** [std::numeric_limits<size_t>::max()] on a 64-bit target. *)
Definition SIZE_MAX : Z := 2 ^ 64 - 1.

(** A value of type [int], in two's complement on 32 bits. *)
Definition wrap_int (n : Z) : Z := (n + 2 ^ 31) mod 2 ^ 32 - 2 ^ 31.

(** ** The rectangle-generation tool *)

(** [ratioRectShapeOverlap]: the loop body, on the counter [numOverlap]. *)
Definition overlap_step (minC maxC : Vector2f) (numOverlap : Z) (p : Vector2f) : Z :=
  let a := vsub p minC in
  let b := vsub p maxC in
  if all_ge0 a && all_le0 b then wrap_int (numOverlap + 1) else numOverlap.

Definition ratioRectShapeOverlap (r : Rect) (s : Shape) : float :=
  let minC := rcol0 r in
  let maxC := rcol3 r in
  let numOverlap := foldl (overlap_step minC maxC) 0 s in
  F32.div (F32.of_Z numOverlap) (F32.of_Z (Z.of_nat (length s))).

(** The search for the face rectangle with the best overlap: the loop over
    [faces], from index [j], with the current [bestId] and [bestOverlap]. *)
Fixpoint findBest (s : Shape) (faces : list Rect) (j bestId : Z) (bestOverlap : float)
  : Z * float :=
  match faces with
  | [] => (bestId, bestOverlap)
  | f :: rest =>
      let o := ratioRectShapeOverlap f s in
      if F32.ltb bestOverlap o
      then findBest s rest (j + 1) j o
      else findBest s rest (j + 1) bestId bestOverlap
  end.

Definition scaleToCV : float := F32.f1_25.
Definition txToCV : float := F32.fm0_01.
Definition tyToCV : float := F32.fm0_05.

(** What the database import hands to [main]: parallel vectors. *)
Record InputData {Image : Type} : Type := mkInput {
  images : list Image;
  shapes : list Shape;
  rects : list Rect;
  scalings : list float
}.
Arguments InputData : clear implicits.

Section RectTool.

(** The collaborators of the tool: images (of which only the size is read
    here), the face detectors, and [dest::core::shapeBounds]. *)
Context {Image FaceDetector : Type}.
Variable image_cols image_rows : Image -> Z.
Variable detectFaces : FaceDetector -> Image -> list Rect.
Variable shapeBounds : Shape -> Rect.

(** The candidates of all detectors, in detector order. *)
Definition collectFaces (detectors : list FaceDetector) (img : Image) : list Rect :=
  foldl (fun faces d => faces ++ detectFaces d img) [] detectors.

(** The search loop from its initial state. *)
Definition bestCandidate (s : Shape) (faces : list Rect) : Z * float :=
  findBest s faces 0 SIZE_MAX F32.zero.

(** The test of the [if]: no candidate, or too small an overlap. *)
Definition fallbackTaken (s : Shape) (faces : list Rect) : bool :=
  let '(bestId, bestOverlap) := bestCandidate s faces in
  (bestId =? SIZE_MAX) || F32.ltb bestOverlap F32.f0_3.

(** The rectangle of the first branch, before the division. *)
Definition fallbackRect (matchCV : bool) (img : Image) (s : Shape) : Rect :=
  let r := shapeBounds s in
  if matchCV then
    let t := translation_times_scaling
               (F32.mul txToCV (F32.of_Z (image_cols img)))
               (F32.mul tyToCV (F32.of_Z (image_rows img)))
               scaleToCV in
    affine_apply t r
  else r.

(** One iteration of the loop over the images, on the state
    [(rects, countDetectionSuccess)].  [None] stands for an access out of
    the bounds of a vector; the three entries [images[i]], [shapes[i]] and
    [scalings[i]] are read at the start, so [None] also covers an entry
    that is missing and that the source would not have read.  The index
    [bestId] of a candidate is below [faces.size()], and the counter is at
    most [rects.size()]: their [size_t] arithmetic does not wrap. *)
Definition processImage (matchCV : bool) (detectors : list FaceDetector)
    (inputs : InputData Image) (i : nat) (st : list Rect * Z) : option (list Rect * Z) :=
  let '(rs, countDetectionSuccess) := st in
  img ← images inputs !! i;
  s ← shapes inputs !! i;
  c ← scalings inputs !! i;
  let faces := collectFaces detectors img in
  let '(bestId, bestOverlap) := bestCandidate s faces in
  if (bestId =? SIZE_MAX) || F32.ltb bestOverlap F32.f0_3 then
    Some (<[i := rect_div (fallbackRect matchCV img s) c]> rs, countDetectionSuccess)
  else
    f ← faces !! Z.to_nat bestId;
    Some (<[i := rect_div f c]> rs, countDetectionSuccess + 1).

(** [n] iterations from index [i]. *)
Fixpoint mainLoop (matchCV : bool) (detectors : list FaceDetector)
    (inputs : InputData Image) (n i : nat) (st : list Rect * Z) : option (list Rect * Z) :=
  match n with
  | O => Some st
  | S n' =>
      st' ← processImage matchCV detectors inputs i st;
      mainLoop matchCV detectors inputs n' (S i) st'
  end.

(** [main] after the database and the detectors are loaded: the exported
    rectangles and the number of successful detections. *)
Definition main (matchCV : bool) (detectors : list FaceDetector)
    (inputs : InputData Image) : option (list Rect * Z) :=
  mainLoop matchCV detectors inputs (length (rects inputs)) 0%nat (rects inputs, 0).

(** The rectangle that iteration [i] stores at index [i]. *)
Definition exportedRect (matchCV : bool) (detectors : list FaceDetector)
    (inputs : InputData Image) (i : nat) : option Rect :=
  img ← images inputs !! i;
  s ← shapes inputs !! i;
  c ← scalings inputs !! i;
  let faces := collectFaces detectors img in
  if fallbackTaken s faces
  then Some (rect_div (fallbackRect matchCV img s) c)
  else f ← faces !! Z.to_nat (fst (bestCandidate s faces)); Some (rect_div f c).

(** What the import and the detectors guarantee: the vectors of the database
    are as long as [rects], and the number of candidates of an image fits an
    index of type [size_t] below the sentinel. *)
Definition consistent (detectors : list FaceDetector) (inputs : InputData Image) : Prop :=
  (length (rects inputs) <= length (images inputs))%nat /\
  (length (rects inputs) <= length (shapes inputs))%nat /\
  (length (rects inputs) <= length (scalings inputs))%nat /\
  forall img, img ∈ images inputs ->
    Z.of_nat (length (collectFaces detectors img)) <= SIZE_MAX.

End RectTool.

(** The invariant of the search loop, on the candidates [pre] seen so far:
    either none had a positive overlap, or [bestId] is the first candidate
    of maximal overlap. *)
Definition bestInv (s : Shape) (pre : list Rect) (bestId : Z) (bestOverlap : float) : Prop :=
  (bestId = SIZE_MAX /\ bestOverlap = F32.zero /\
   forall f, f ∈ pre -> F32.ltb F32.zero (ratioRectShapeOverlap f s) = false)
  \/
  (0 <= bestId < Z.of_nat (length pre) /\
   (exists fb, pre !! Z.to_nat bestId = Some fb /\ ratioRectShapeOverlap fb s = bestOverlap) /\
   F32.ltb F32.zero bestOverlap = true /\
   (forall f, f ∈ pre -> F32.ltb bestOverlap (ratioRectShapeOverlap f s) = false) /\
   (forall (k : nat) f, Z.of_nat k < bestId -> pre !! k = Some f ->
       F32.leb bestOverlap (ratioRectShapeOverlap f s) = false)).

(** The claim about [ratioRectShapeOverlap] in the words of the
    specification: a landmark is covered when its coordinates lie between
    those of the min corner (column 0) and of the max corner (column 3),
    boundary included. *)
Definition insideRect (r : Rect) (p : Vector2f) : bool :=
  F32.leb (fst (rcol0 r)) (fst p) && F32.leb (snd (rcol0 r)) (snd p)
  && F32.leb (fst p) (fst (rcol3 r)) && F32.leb (snd p) (snd (rcol3 r)).

Definition countInside (r : Rect) (s : Shape) : Z :=
  Z.of_nat (length (List.filter (insideRect r) s)).

(** No coordinate of the two corners is infinite. *)
Definition cornersNotInf (r : Rect) : bool :=
  negb (F32.is_inf (fst (rcol0 r))) && negb (F32.is_inf (snd (rcol0 r)))
  && negb (F32.is_inf (fst (rcol3 r))) && negb (F32.is_inf (snd (rcol3 r))).

(** Both coordinates are binary32 values: a finite one has a canonical
    mantissa and an exponent in range. *)
Definition validVector (p : Vector2f) : bool := F32.valid (fst p) && F32.valid (snd p).

(** ** The training-data interface *)

Module TrainingData.

(** [TrainingData::Sample]. *)
Record Sample : Type := mkSample { idx : Z; estimate : Shape }.

(** The default arguments of the declarations. *)
Definition default_numInitializationsPerImage : Z := 20.
Definition default_validatePercent : float := F32.f0_1.

Section Declarations.

(** The generator [std::mt19937]; [Samples] stands for what a body leaves
    in its [SampleVector &] arguments. *)
Context {Rng Samples : Type}.

(** The three declarations that carry a default argument, over the body
    that the header does not hold; an omitted last argument is [None]. *)
Definition createTrainingSamplesKazemi (body : list Shape -> Rng -> Z -> Samples)
    (shapes : list Shape) (rnd : Rng) (numInitializationsPerImage : option Z) : Samples :=
  body shapes rnd (default default_numInitializationsPerImage numInitializationsPerImage).

Definition createTrainingSamplesThroughLinearCombinations
    (body : list Shape -> Rng -> Z -> Samples)
    (shapes : list Shape) (rnd : Rng) (numInitializationsPerImage : option Z) : Samples :=
  body shapes rnd (default default_numInitializationsPerImage numInitializationsPerImage).

Definition randomPartitionTrainingSamples (body : list Sample -> Rng -> float -> Samples)
    (train : list Sample) (rnd : Rng) (validatePercent : option float) : Samples :=
  body train rnd (default default_validatePercent validatePercent).

End Declarations.

(** Modelled from the spec: [round(n * p)] of section 8, for a share
    [p >= 0], halves rounded up; zero for a negative, infinite or NaN
    share.  Absent from the sources. *)
Definition roundedShare (n : nat) (p : float) : nat :=
  match p with
  | S754_finite false m e =>
      let v := Z.of_nat n * Z.pos m in
      Z.to_nat (if 0 <=? e then v * 2 ^ e else (2 * v + 2 ^ (- e)) / 2 ^ (1 - e))
  | _ => 0%nat
  end.

Section Bodies.

(** The generator and its [operator()]. *)
Context {Rng : Type}.
Variable next : Rng -> Z * Rng.

(** Modelled from the spec: the map of a shape into the normalized frame
    of image [i], which the header does not declare. *)
Variable toNormalizedFrame : nat -> Shape -> Shape.

(** Modelled from the spec: [std::shuffle] on the samples, used by the
    absent body of [randomPartitionTrainingSamples]. *)
Variable shuffle : Rng -> list Sample -> list Sample * Rng.

(** Modelled from the spec: the draw of a shape other than shape [i], one
    of the [numShapes - 1] others; absent from the sources.  There is
    nothing to draw from when shape [i] is the only one. *)
Definition drawOther (numShapes i : nat) (rnd : Rng) : option (nat * Rng) :=
  if (numShapes <=? 1)%nat then None
  else
    let '(v, rnd') := next rnd in
    let t := Z.to_nat (v mod (Z.of_nat numShapes - 1)) in
    Some (if (t <? i)%nat then t else S t, rnd').

(** Modelled from the spec: the [k] initial estimates of image [i]. *)
Fixpoint initializationsFor (shapes : list Shape) (i k : nat) (rnd : Rng)
  : option (list Sample * Rng) :=
  match k with
  | O => Some ([], rnd)
  | S k' =>
      '(o, rnd1) ← drawOther (length shapes) i rnd;
      sh ← shapes !! o;
      '(rest, rnd2) ← initializationsFor shapes i k' rnd1;
      Some (mkSample (Z.of_nat i) (toNormalizedFrame i sh) :: rest, rnd2)
  end.

(** Modelled from the spec: the samples of the [n] images from [i] on. *)
Fixpoint samplesFrom (shapes : list Shape) (n i k : nat) (rnd : Rng)
  : option (list Sample * Rng) :=
  match n with
  | O => Some ([], rnd)
  | S n' =>
      '(here, rnd1) ← initializationsFor shapes i k rnd;
      '(rest, rnd2) ← samplesFrom shapes n' (S i) k rnd1;
      Some (here ++ rest, rnd2)
  end.

(** Modelled from the spec: the body of
    [TrainingData::createTrainingSamplesKazemi], of which the sources hold
    the declaration only: for each shape, [numInitializationsPerImage]
    draws among the other shapes.  [None] when a draw is impossible. *)
Definition kazemiSamples (shapes : list Shape) (rnd : Rng)
    (numInitializationsPerImage : Z) : option (list Sample * Rng) :=
  samplesFrom shapes (length shapes) 0 (Z.to_nat numInitializationsPerImage) rnd.

(** Modelled from the spec: the body of
    [TrainingData::randomPartitionTrainingSamples], of which the sources
    hold the declaration only: shuffle, then hold out the first
    [round(N * validatePercent)] samples.  The result is
    [(train, validate, rnd)]. *)
Definition partitionSamples (train : list Sample) (rnd : Rng)
    (validatePercent : float) : list Sample * list Sample * Rng :=
  let '(shuffled, rnd') := shuffle rnd train in
  let numValidate := roundedShare (length train) validatePercent in
  (drop numValidate shuffled, take numValidate shuffled, rnd').

End Bodies.

(** What the claim on [createTrainingSamplesKazemi] asks of one sample: an
    image index in range, and an estimate that is the image of another
    ground-truth shape. *)
Definition fromOtherShape (toNormalizedFrame : nat -> Shape -> Shape)
    (shapes : list Shape) (smp : Sample) : Prop :=
  0 <= idx smp < Z.of_nat (length shapes) /\
  exists (o : nat) (sh : Shape),
    Z.of_nat o <> idx smp /\ shapes !! o = Some sh /\
    estimate smp = toNormalizedFrame (Z.to_nat (idx smp)) sh.

End TrainingData.

(** ** Notions for the proofs on binary32 rounding *)

(** A float of sign [s] that is neither zero nor NaN. *)
Definition strictly_signed (s : bool) (x : float) : Prop :=
  match x with
  | S754_finite s' _ _ | S754_infinity s' => s' = s
  | _ => False
  end.

(** After [k] shifts of [(m, false, false)]: the quotient, and what the round
    and sticky bits say of the remainder [m mod 2 ^ k]. *)
Definition shifted (m : Z) (k : nat) (mrs : shr_record) : Prop :=
  shr_m mrs = m / 2 ^ Z.of_nat k /\
  (shr_r mrs = true -> 2 ^ Z.of_nat k <= 2 * (m mod 2 ^ Z.of_nat k)) /\
  (shr_r mrs = false -> 2 * (m mod 2 ^ Z.of_nat k) < 2 ^ Z.of_nat k) /\
  (shr_s mrs = false ->
     2 * (m mod 2 ^ Z.of_nat k) = if shr_r mrs then 2 ^ Z.of_nat k else 0).

(** The float made of a rounded mantissa [M <= 2 ^ 24] at exponent [e]. *)
Definition normalize24 (M e : Z) : float :=
  if M =? 2 ^ 24 then S754_finite false 8388608 (e + 1)
  else match M with
       | Z.pos p => S754_finite false p e
       | _ => S754_zero false
       end.

(** A normal binary32 number of the size of a 32-bit integer. *)
Definition normal24 (m : positive) (e : Z) : Prop :=
  2 ^ 23 <= Z.pos m < 2 ^ 24 /\ -23 <= e <= 8.

(** ** A small database for the examples *)

Module Example.

(** An image reduced to its size [(cols, rows)]; a detector that returns
    its own fixed list of candidates. *)
Definition Image : Type := Z * Z.
Definition cols (img : Image) : Z := fst img.
Definition rows (img : Image) : Z := snd img.
Definition Detector : Type := list Rect.
Definition detect (d : Detector) (_ : Image) : list Rect := d.

Definition fmin (a b : float) : float := if F32.ltb b a then b else a.
Definition fmax (a b : float) : float := if F32.ltb a b then b else a.

(** A stand-in for [dest::core::shapeBounds] in the examples: the tight
    axis-aligned bounds, min corner in column 0 and max corner in column 3. *)
Definition tightBounds (s : Shape) : Rect :=
  match s with
  | [] => mkRect (F32.zero, F32.zero) (F32.zero, F32.zero) (F32.zero, F32.zero) (F32.zero, F32.zero)
  | p :: ps =>
      let lo := foldl (fun m q => (fmin (fst m) (fst q), fmin (snd m) (snd q))) p ps in
      let hi := foldl (fun m q => (fmax (fst m) (fst q), fmax (snd m) (snd q))) p ps in
      mkRect lo (fst hi, snd lo) (fst lo, snd hi) hi
  end.

Definition pt (x y : Z) : Vector2f := (F32.of_Z x, F32.of_Z y).
Definition box (x0 y0 x1 y1 : Z) : Rect :=
  mkRect (pt x0 y0) (pt x1 y0) (pt x0 y1) (pt x1 y1).

Definition shapeA : Shape := [pt 10 10; pt 20 10; pt 15 20; pt 12 30; pt 18 30].
Definition shapeB : Shape := [pt 11 9; pt 21 11; pt 14 22; pt 13 31; pt 17 29].
Definition shapeC : Shape := [pt 9 12; pt 19 12; pt 16 21; pt 11 28; pt 19 32].
Definition faceGood : Rect := box 5 5 25 25.        (* covers 3 of 5 of shapeA *)
Definition faceBetter : Rect := box 0 0 40 40.      (* covers 5 of 5 *)
Definition faceOff : Rect := box 100 100 120 120.   (* covers none *)
Definition faceWeak : Rect := box 0 0 11 11.        (* covers 1 of 5 *)

(** Three images; the third comes with a shape without landmarks. *)
Definition inputsA : InputData Image :=
  mkInput Image [(640, 480); (320, 240); (64, 64)] [shapeA; shapeA; []]
    [box 0 0 0 0; box 0 0 0 0; box 0 0 0 0] [F32.of_Z 2; F32.one; F32.one].

Definition detectorsA : list Detector := [[faceOff; faceGood]; [faceBetter; faceBetter]].

Definition run (matchCV : bool) (ds : list Detector) (inp : InputData Image)
  : option (list Rect * Z) :=
  main cols rows detect tightBounds matchCV ds inp.

Definition facesOf (ds : list Detector) : list Rect := collectFaces detect ds (640, 480).

(** The rectangle from the origin to infinity, and a landmark on its far
    side. *)
Definition quadrant : Rect :=
  mkRect (F32.zero, F32.zero) (F32.pinf, F32.zero) (F32.zero, F32.pinf) (F32.pinf, F32.pinf).
Definition farShape : Shape := [(F32.pinf, F32.one)].

(** A linear congruential generator in place of [std::mt19937]; shapes that
    are already in the normalized frame; a shuffle that reverses. *)
Definition nextLCG (s : Z) : Z * Z :=
  let s' := (1103515245 * s + 12345) mod 2 ^ 31 in (s', s').
Definition sameFrame (_ : nat) (sh : Shape) : Shape := sh.
Definition reverseShuffle (rnd : Z) (l : list TrainingData.Sample)
  : list TrainingData.Sample * Z := (reverse l, rnd).
Definition samples25 : list TrainingData.Sample :=
  map (fun i => TrainingData.mkSample (Z.of_nat i) shapeA) (seq 0 25).

End Example.

(** ** Further notions on the tool *)

Section RectToolNotions.
Context {Image FaceDetector : Type}.
Variable detectFaces : FaceDetector -> Image -> list Rect.

(** Whether iteration [i] takes the [else] branch and increments
    [countDetectionSuccess]. *)
Definition detectedAt (detectors : list FaceDetector) (inputs : InputData Image)
    (i : nat) : bool :=
  match images inputs !! i, shapes inputs !! i with
  | Some img, Some s => negb (fallbackTaken s (collectFaces detectFaces detectors img))
  | _, _ => false
  end.
End RectToolNotions.

(** The database with another vector of rectangles. *)
Definition withRects {Image : Type} (inputs : InputData Image) (rs : list Rect)
  : InputData Image :=
  mkInput Image (images inputs) (shapes inputs) rs (scalings inputs).

(** All eight coefficients are binary32 values. *)
Definition validRect (r : Rect) : bool :=
  validVector (rcol0 r) && validVector (rcol1 r) && validVector (rcol2 r) && validVector (rcol3 r).

(** Zero or finite: neither NaN nor infinite. *)
Definition finiteFloat (x : float) : bool :=
  match x with
  | S754_zero _ | S754_finite _ _ _ => true
  | _ => false
  end.

Definition finiteVector (p : Vector2f) : bool := finiteFloat (fst p) && finiteFloat (snd p).

Definition finiteRect (r : Rect) : bool :=
  finiteVector (rcol0 r) && finiteVector (rcol1 r) && finiteVector (rcol2 r) && finiteVector (rcol3 r).

Definition is_zero (x : float) : bool :=
  match x with S754_zero _ => true | _ => false end.

(** The location after one more shift: the low bit of [q] goes first. *)
Definition shifted_location (q : Z) (l : location) : location :=
  match Z.odd q, l with
  | false, loc_Exact => loc_Exact
  | false, _ => loc_Inexact Lt
  | true, loc_Exact => loc_Inexact Eq
  | true, _ => loc_Inexact Gt
  end.

(** ** [main] from the import of the database on *)

(** The options of the command line, as [main] keeps them in [opts]. *)
Record Options {Path : Type} : Type := mkOptions {
  opt_detectors : list Path;
  opt_db : Path;
  opt_output : Path;
  opt_maxImageSideLength : Z;
  opt_matchCV : bool
}.
Arguments Options : clear implicits.

(** How [main] ends once the command line is parsed. *)
Inductive Outcome {Path : Type} : Type :=
| DatabaseFailed                     (* "Failed to load database", return -1 *)
| DetectorFailed (name : Path)       (* "Failed to load detector", return -1 *)
| Exported (output : Path) (rects : list Rect) (countDetectionSuccess : Z). (* return 0 *)
Arguments Outcome : clear implicits.

Definition exitCode {Path : Type} (o : Outcome Path) : Z :=
  match o with
  | Exported _ _ _ => 0
  | _ => -1
  end.

Section Program.

Context {Image FaceDetector Path : Type}.
Variable image_cols image_rows : Image -> Z.
Variable detectFaces : FaceDetector -> Image -> list Rect.
Variable shapeBounds : Shape -> Rect.
(** [dest::io::importDatabase] and [FaceDetector::loadClassifiers]; [None]
    is the result [false]. *)
Variable importDatabase : Path -> Z -> option (InputData Image).
Variable loadClassifiers : Path -> option FaceDetector.

(** The loop that loads the classifiers: it stops at the first failure. *)
Fixpoint loadDetectors (names : list Path) : list FaceDetector + Path :=
  match names with
  | [] => inl []
  | name :: rest =>
      match loadClassifiers name with
      | None => inr name
      | Some d =>
          match loadDetectors rest with
          | inl ds => inl (d :: ds)
          | inr failed => inr failed
          end
      end
  end.

(** [main] from the import of the database on. *)
Definition program (opts : Options Path) : option (Outcome Path) :=
  match importDatabase (opt_db opts) (opt_maxImageSideLength opts) with
  | None => Some DatabaseFailed
  | Some inputs =>
      match loadDetectors (opt_detectors opts) with
      | inr name => Some (DetectorFailed name)
      | inl detectors =>
          '(rects, countDetectionSuccess) ←
            main image_cols image_rows detectFaces shapeBounds (opt_matchCV opts) detectors inputs;
          Some (Exported (opt_output opts) rects countDetectionSuccess)
      end
  end.

End Program.

(** Detectors that find nothing. *)
Definition silentDetectors : list Example.Detector := [[]; []].


(** One image of width 0, whose shape has its only landmark at [(-0, 1)]. *)
Definition inputsFlat : InputData Example.Image :=
  mkInput Example.Image [(0, 480)] [[(S754_zero true, F32.one)]] [Example.box 0 0 0 0]
    [F32.one].

(** * Proofs *)

(** ** The order on binary32 numbers *)

Module F32Facts.
Ltac cmp_cases :=
  repeat match goal with
  | |- context [Pos.compare_cont Eq ?a ?b] => change (Pos.compare_cont Eq a b) with (Pos.compare a b)
  | H : context [Pos.compare_cont Eq ?a ?b] |- _ => change (Pos.compare_cont Eq a b) with (Pos.compare a b) in H
  end;
  repeat match goal with
  | H : context [Z.compare ?a ?b] |- _ => destruct (Z.compare_spec a b); simpl in *
  | |- context [Z.compare ?a ?b] => destruct (Z.compare_spec a b); simpl in *
  | H : context [Pos.compare ?a ?b] |- _ => destruct (Pos.compare_spec a b); simpl in *
  | |- context [Pos.compare ?a ?b] => destruct (Pos.compare_spec a b); simpl in *
  end.

Ltac float_order :=
  unfold F32.ltb, F32.leb, SFltb, SFleb, SFcompare; intros;
  repeat match goal with x : float |- _ => destruct x as [[]|[]| |[] ? ?] end;
  simpl in *; try congruence; cmp_cases; try congruence; try lia.

Lemma ltb_leb_trans (a b c : float) : F32.ltb a b = true -> F32.leb b c = true -> F32.ltb a c = true.
Proof. float_order. Qed.

Lemma ltb_asym (a b : float) : F32.ltb a b = true -> F32.leb b a = false.
Proof. float_order. Qed.

Lemma ltb_leb (a b : float) : F32.ltb a b = true -> F32.leb a b = true.
Proof. float_order. Qed.

Lemma leb_total (a b : float) : F32.is_nan a = false -> F32.is_nan b = false -> F32.ltb a b = false -> F32.leb b a = true.
Proof. float_order. Qed.

Lemma ltb_not_nan (a b : float) : F32.ltb a b = true -> F32.is_nan a = false /\ F32.is_nan b = false.
Proof. float_order; auto. Qed.

Lemma ltb_irrefl (a : float) : F32.ltb a a = false.
Proof. float_order. Qed.

Lemma leb_ltb_trans (a b c : float) : F32.leb a b = true -> F32.ltb b c = true -> F32.ltb a c = true.
Proof. float_order. Qed.

(** ** Mantissas, shifts and rounding *)


Lemma digits2_pos_bounds (p : positive) :
  2 ^ (Z.pos (digits2_pos p) - 1) <= Z.pos p < 2 ^ Z.pos (digits2_pos p).
Proof.
  induction p as [p IH|p IH|]; simpl digits2_pos.
  - rewrite Pos2Z.inj_succ. replace (Z.succ (Z.pos (digits2_pos p)) - 1) with (Z.succ (Z.pos (digits2_pos p) - 1)) by lia.
    rewrite !Z.pow_succ_r by lia. lia.
  - rewrite Pos2Z.inj_succ. replace (Z.succ (Z.pos (digits2_pos p)) - 1) with (Z.succ (Z.pos (digits2_pos p) - 1)) by lia.
    rewrite !Z.pow_succ_r by lia. lia.
  - simpl. lia.
Qed.

Lemma pos_iter_xO (d m : positive) : Z.pos (Pos.iter xO m d) = Z.pos m * 2 ^ Z.pos d.
Proof.
  induction d as [|d IH] using Pos.peano_ind.
  - simpl. lia.
  - rewrite Pos.iter_succ, Pos2Z.inj_xO, IH, Pos2Z.inj_succ, Z.pow_succ_r by lia. lia.
Qed.

(** [shl_align m e e'] keeps the value and lowers the exponent to [e'] when [e' <= e]. *)
Lemma shl_align_spec (m : positive) (e e' : Z) :
  e' <= e ->
  snd (shl_align m e e') = e' /\ Z.pos (fst (shl_align m e e')) = Z.pos m * 2 ^ (e - e').
Proof.
  intros H. unfold shl_align. destruct (e' - e) as [|d|d] eqn:Hd; simpl.
  - assert (e = e') by lia. subst. rewrite Z.sub_diag. simpl. lia.
  - lia.
  - rewrite pos_iter_xO. replace (e - e') with (Z.pos d) by lia. lia.
Qed.

Lemma shl_align_ge (m : positive) (e e' : Z) :
  e <= e' -> shl_align m e e' = (m, e).
Proof.
  intros H. unfold shl_align. destruct (e' - e) as [|d|d] eqn:Hd; simpl; auto. lia.
Qed.

(** Iterated [shr_1] on a non-negative mantissa divides it by a power of two. *)
Lemma shr_1_m (mrs : shr_record) : 0 <= shr_m mrs -> shr_m (shr_1 mrs) = shr_m mrs / 2.
Proof.
  destruct mrs as [m r s]. cbn [shr_m]. intros H.
  destruct m as [|[p|p|]|p]; cbv [shr_1 shr_m]; try lia.
  - reflexivity.
  - apply Z.div_unique with 1; lia.
  - apply Z.div_unique with 0; lia.
  - reflexivity.
Qed.

Lemma iter_pos_shr_m (p : positive) : forall mrs, 0 <= shr_m mrs ->
  shr_m (SpecFloat.iter_pos shr_1 p mrs) = shr_m mrs / 2 ^ Z.pos p.
Proof.
  induction p as [p IH|p IH|]; intros mrs H; simpl SpecFloat.iter_pos.
  - assert (H1 : 0 <= shr_m (shr_1 mrs)) by (rewrite shr_1_m by lia; apply Z.div_pos; lia).
    assert (H2 : 0 <= shr_m (SpecFloat.iter_pos shr_1 p (shr_1 mrs)))
      by (rewrite IH by lia; apply Z.div_pos; lia).
    rewrite IH, IH, shr_1_m by lia.
    rewrite !Z.div_div by lia. f_equal.
    replace (Z.pos p~1) with (1 + Z.pos p + Z.pos p) by lia.
    rewrite !Z.pow_add_r by lia. lia.
  - assert (H2 : 0 <= shr_m (SpecFloat.iter_pos shr_1 p mrs))
      by (rewrite IH by lia; apply Z.div_pos; lia).
    rewrite IH, IH by lia. rewrite !Z.div_div by lia. f_equal.
    replace (Z.pos p~0) with (Z.pos p + Z.pos p) by lia.
    rewrite !Z.pow_add_r by lia. lia.
  - rewrite shr_1_m by lia. reflexivity.
Qed.

Lemma shr_m_spec (mrs : shr_record) (e n : Z) :
  0 <= shr_m mrs ->
  shr_m (fst (shr mrs e n)) = shr_m mrs / 2 ^ Z.max 0 n /\ snd (shr mrs e n) = e + Z.max 0 n.
Proof.
  intros H. destruct n as [|p|p]; simpl.
  - rewrite Z.div_1_r. lia.
  - rewrite iter_pos_shr_m by lia. split; [reflexivity|lia].
  - rewrite Z.div_1_r. lia.
Qed.

Lemma shr_record_of_loc_m (m : Z) (l : location) : shr_m (shr_record_of_loc m l) = m.
Proof. destruct l as [|[]]; reflexivity. Qed.

Lemma Zdigits2_bounds (m : Z) : 0 < m -> 2 ^ (Zdigits2 m - 1) <= m < 2 ^ Zdigits2 m.
Proof. destruct m; try lia. intros _. apply digits2_pos_bounds. Qed.

Lemma Zdigits2_unique (m d : Z) : 2 ^ (d - 1) <= m < 2 ^ d -> 0 < d -> Zdigits2 m = d.
Proof.
  intros H Hd.
  assert (0 < m) by (pose proof (Z.pow_pos_nonneg 2 (d - 1)); lia).
  pose proof (Zdigits2_bounds m H0) as Hb.
  assert (0 < Zdigits2 m) by (destruct m; simpl; lia).
  destruct (Z.lt_trichotomy (Zdigits2 m) d) as [Hlt|[Heq|Hgt]]; [|exact Heq|].
  - exfalso. assert (2 ^ Zdigits2 m <= 2 ^ (d - 1)) by (apply Z.pow_le_mono_r; lia). lia.
  - exfalso. assert (2 ^ d <= 2 ^ (Zdigits2 m - 1)) by (apply Z.pow_le_mono_r; lia). lia.
Qed.

(** *** Rounding keeps the sign and does not reach zero from above [emin] *)

Lemma fexp32 (k : Z) : fexp F32.prec F32.emax k = Z.max (k - 24) (-149).
Proof. reflexivity. Qed.

Lemma round_nearest_even_bounds (m : Z) (l : location) :
  m <= round_nearest_even m l <= m + 1.
Proof. destruct l as [|[]]; simpl; try lia. destruct (Z.even m); lia. Qed.

Lemma shr_fexp_pos (m e : Z) (l : location) :
  0 < m -> -149 <= e ->
  0 < shr_m (fst (shr_fexp F32.prec F32.emax m e l)) /\
  -149 <= snd (shr_fexp F32.prec F32.emax m e l).
Proof.
  intros Hm He. unfold shr_fexp. rewrite fexp32.
  set (n := Z.max (Zdigits2 m + e - 24) (-149) - e).
  destruct (shr_m_spec (shr_record_of_loc m l) e n) as [Hs He'];
    [rewrite shr_record_of_loc_m; lia|].
  rewrite Hs, He', shr_record_of_loc_m. split; [|lia].
  destruct (Z.max_spec 0 n) as [[Hn ->]|[Hn ->]].
  - pose proof (Zdigits2_bounds m Hm) as [Hlo _].
    assert (Hd : n = Zdigits2 m - 24) by lia.
    assert (2 ^ 23 <= m / 2 ^ n); [|lia].
    apply Z.div_le_lower_bound; [apply Z.pow_pos_nonneg; lia|].
    rewrite <- Z.pow_add_r by lia. replace (n + 23) with (Zdigits2 m - 1) by lia. exact Hlo.
  - rewrite Z.div_1_r. exact Hm.
Qed.

Lemma binary_round_aux_signed (s : bool) (m e : Z) (l : location) :
  0 < m -> -149 <= e -> strictly_signed s (binary_round_aux F32.prec F32.emax s m e l).
Proof.
  intros Hm He. unfold binary_round_aux.
  pose proof (shr_fexp_pos m e l Hm He) as [H1 H2].
  destruct (shr_fexp F32.prec F32.emax m e l) as [mrs' e']. simpl in H1, H2.
  pose proof (round_nearest_even_bounds (shr_m mrs') (loc_of_shr_record mrs')) as Hr.
  pose proof (shr_fexp_pos (round_nearest_even (shr_m mrs') (loc_of_shr_record mrs')) e'
                loc_Exact ltac:(lia) H2) as [H3 _].
  destruct (shr_fexp F32.prec F32.emax _ e' loc_Exact) as [mrs'' e'']. simpl in H3.
  destruct (shr_m mrs''); try lia.
  destruct (e'' <=? F32.emax - F32.prec); reflexivity.
Qed.

Lemma binary_round_signed (s : bool) (p : positive) (e : Z) :
  -149 <= e -> strictly_signed s (binary_round F32.prec F32.emax s p e).
Proof.
  intros He. unfold binary_round. rewrite fexp32.
  destruct (Z.le_gt_cases e (Z.max (Z.pos (digits2_pos p) + e - 24) (-149))) as [H|H].
  - rewrite shl_align_ge by lia. apply binary_round_aux_signed; lia.
  - destruct (shl_align_spec p e (Z.max (Z.pos (digits2_pos p) + e - 24) (-149)) ltac:(lia)) as [H1 H2].
    destruct (shl_align p e _) as [mz ez]. simpl in H1, H2. subst ez.
    apply binary_round_aux_signed; lia.
Qed.

Lemma strictly_signed_leb_zero (s : bool) (x : float) :
  strictly_signed s x -> F32.leb F32.zero x = negb s /\ F32.leb x F32.zero = s.
Proof. destruct x as [| | |s' m e]; simpl; try tauto; intros ->; destruct s; auto. Qed.

Lemma binary_normalize_leb_zero (d e : Z) :
  -149 <= e ->
  F32.leb F32.zero (binary_normalize F32.prec F32.emax d e false) = (0 <=? d) /\
  F32.leb (binary_normalize F32.prec F32.emax d e false) F32.zero = (d <=? 0).
Proof.
  intros He. destruct d as [|p|p]; simpl binary_normalize.
  - split; reflexivity.
  - apply (strictly_signed_leb_zero false), binary_round_signed, He.
  - apply (strictly_signed_leb_zero true), binary_round_signed, He.
Qed.

(** *** Comparison of canonical floats is comparison of aligned mantissas *)

Lemma bounded_spec (m : positive) (e : Z) :
  bounded F32.prec F32.emax m e = true ->
  -149 <= e <= 104 /\ Z.pos (digits2_pos m) <= 24 /\
  (-149 < e -> Z.pos (digits2_pos m) = 24).
Proof.
  unfold bounded, canonical_mantissa. rewrite fexp32.
  intros H. apply andb_true_iff in H as [H1 H2].
  apply Z.eqb_eq in H1. apply Z.leb_le in H2. change (F32.emax - F32.prec) with 104 in H2. lia.
Qed.

Lemma aligned_lt (m1 m2 : positive) (e1 e2 : Z) :
  bounded F32.prec F32.emax m1 e1 = true -> bounded F32.prec F32.emax m2 e2 = true ->
  e1 < e2 -> Z.pos m1 < Z.pos m2 * 2 ^ (e2 - e1).
Proof.
  intros H1 H2 He.
  apply bounded_spec in H1 as (? & Hd1 & _). apply bounded_spec in H2 as (? & _ & Hd2).
  pose proof (digits2_pos_bounds m1) as [_ Hu]. pose proof (digits2_pos_bounds m2) as [Hl _].
  rewrite Hd2 in Hl by lia.
  assert (2 ^ Z.pos (digits2_pos m1) <= 2 ^ 24) by (apply Z.pow_le_mono_r; lia).
  assert (2 ^ 1 <= 2 ^ (e2 - e1)) by (apply Z.pow_le_mono_r; lia).
  change (2 ^ (24 - 1)) with 8388608 in Hl. change (2 ^ 24) with 16777216 in *.
  change (2 ^ 1) with 2 in *. nia.
Qed.

Lemma SFcompare_aligned (sx sy : bool) (mx my : positive) (ex ey : Z) :
  bounded F32.prec F32.emax mx ex = true -> bounded F32.prec F32.emax my ey = true ->
  SFcompare (S754_finite sx mx ex) (S754_finite sy my ey) =
  Some (cond_Zopp sx (Z.pos (fst (shl_align mx ex (Z.min ex ey))))
        ?= cond_Zopp sy (Z.pos (fst (shl_align my ey (Z.min ex ey))))).
Proof.
  intros Hx Hy.
  destruct (shl_align_spec mx ex (Z.min ex ey) ltac:(lia)) as [_ Hax].
  destruct (shl_align_spec my ey (Z.min ex ey) ltac:(lia)) as [_ Hay].
  rewrite Hax, Hay. clear Hax Hay.
  assert (Hlt : ex < ey -> Z.pos mx < Z.pos my * 2 ^ (ey - ex)) by (apply aligned_lt; auto).
  assert (Hgt : ey < ex -> Z.pos my < Z.pos mx * 2 ^ (ex - ey)) by (apply aligned_lt; auto).
  assert (Hpx : 0 < 2 ^ (ex - Z.min ex ey)) by (apply Z.pow_pos_nonneg; lia).
  assert (Hpy : 0 < 2 ^ (ey - Z.min ex ey)) by (apply Z.pow_pos_nonneg; lia).
  unfold SFcompare. f_equal.
  change (Pos.compare_cont Eq mx my) with (Pos.compare mx my).
  destruct (Z.compare_spec ex ey) as [He|He|He].
  - subst ey. rewrite Z.min_id, Z.sub_diag in *. change (2 ^ 0) with 1. rewrite !Z.mul_1_r.
    destruct sx, sy; reflexivity.
  - rewrite Z.min_l in * by lia. rewrite Z.sub_diag. change (2 ^ 0) with 1. rewrite Z.mul_1_r.
    specialize (Hlt He).
    destruct sx, sy; cbv beta iota delta [cond_Zopp]; symmetry.
    + apply Z.compare_gt_iff. lia.
    + apply Z.compare_lt_iff. lia.
    + apply Z.compare_gt_iff. lia.
    + apply Z.compare_lt_iff. lia.
  - rewrite Z.min_r in * by lia. rewrite Z.sub_diag. change (2 ^ 0) with 1. rewrite Z.mul_1_r.
    specialize (Hgt He).
    destruct sx, sy; cbv beta iota delta [cond_Zopp]; symmetry.
    + apply Z.compare_lt_iff. lia.
    + apply Z.compare_lt_iff. lia.
    + apply Z.compare_gt_iff. lia.
    + apply Z.compare_gt_iff. lia.
Qed.

(** *** The sign of a difference decides the comparison *)

Lemma sub_finite_leb_zero (sx sy : bool) (mx my : positive) (ex ey : Z) :
  bounded F32.prec F32.emax mx ex = true -> bounded F32.prec F32.emax my ey = true ->
  let x := S754_finite sx mx ex in
  let y := S754_finite sy my ey in
  F32.leb F32.zero (F32.sub x y) = F32.leb y x /\
  F32.leb (F32.sub x y) F32.zero = F32.leb x y.
Proof.
  intros Hx Hy x y.
  pose proof (bounded_spec _ _ Hx) as (Hex & _). pose proof (bounded_spec _ _ Hy) as (Hey & _).
  unfold F32.sub, SFsub, x, y.
  destruct (binary_normalize_leb_zero
              (cond_Zopp sx (Z.pos (fst (shl_align mx ex (Z.min ex ey))))
               - cond_Zopp sy (Z.pos (fst (shl_align my ey (Z.min ex ey)))))
              (Z.min ex ey) ltac:(lia)) as [-> ->].
  unfold F32.leb, SFleb.
  rewrite (SFcompare_aligned sx sy mx my ex ey Hx Hy).
  rewrite (SFcompare_aligned sy sx my mx ey ex Hy Hx), (Z.min_comm ey ex).
  set (X := cond_Zopp sx _). set (Y := cond_Zopp sy _).
  split.
  - destruct (Z.compare_spec Y X); [apply Z.leb_le|apply Z.leb_le|apply Z.leb_gt]; lia.
  - destruct (Z.compare_spec X Y); [apply Z.leb_le|apply Z.leb_le|apply Z.leb_gt]; lia.
Qed.

(** [x - m >= 0] is [m <= x], unless both are infinite. *)
Lemma sub_ge0 (x m : float) :
  F32.valid x = true -> F32.valid m = true -> F32.is_inf m = false ->
  F32.leb F32.zero (F32.sub x m) = F32.leb m x.
Proof.
  intros Hx Hm Hinf.
  destruct x as [sx|sx| |sx mx ex], m as [sm|sm| |sm mm em]; try discriminate Hinf;
    try (destruct sx; reflexivity); try (destruct sm; reflexivity);
    try (destruct sx, sm; reflexivity); try reflexivity.
  apply sub_finite_leb_zero; assumption.
Qed.

(** [x - m <= 0] is [x <= m], unless both are infinite. *)
Lemma sub_le0 (x m : float) :
  F32.valid x = true -> F32.valid m = true -> F32.is_inf m = false ->
  F32.leb (F32.sub x m) F32.zero = F32.leb x m.
Proof.
  intros Hx Hm Hinf.
  destruct x as [sx|sx| |sx mx ex], m as [sm|sm| |sm mm em]; try discriminate Hinf;
    try (destruct sx; reflexivity); try (destruct sm; reflexivity);
    try (destruct sx, sm; reflexivity); try reflexivity.
  apply sub_finite_leb_zero; assumption.
Qed.


(** *** The round and sticky bits of a right shift *)

Lemma shr_1_spec (mrs : shr_record) :
  0 <= shr_m mrs ->
  shr_1 mrs = Build_shr_record (shr_m mrs / 2) (Z.odd (shr_m mrs)) (shr_r mrs || shr_s mrs).
Proof.
  destruct mrs as [m r s]. cbn [shr_m shr_r shr_s]. intros H.
  destruct m as [|[p|p|]|p]; cbv [shr_1]; try lia; f_equal.
  - apply Z.div_unique with 1; lia.
  - apply Z.div_unique with 0; lia.
Qed.

Lemma iter_pos_nat {A : Type} (f : A -> A) (p : positive) : forall x,
  SpecFloat.iter_pos f p x = Nat.iter (Pos.to_nat p) f x.
Proof.
  induction p as [p IH|p IH|]; intros x; simpl SpecFloat.iter_pos.
  - rewrite !IH, Pos2Nat.inj_xI.
    replace (S (2 * Pos.to_nat p)) with (Pos.to_nat p + (Pos.to_nat p + 1))%nat by lia.
    rewrite !Nat.iter_add. reflexivity.
  - rewrite !IH, Pos2Nat.inj_xO.
    replace (2 * Pos.to_nat p)%nat with (Pos.to_nat p + Pos.to_nat p)%nat by lia.
    rewrite Nat.iter_add. reflexivity.
  - reflexivity.
Qed.

Lemma shifted_step (m : Z) (k : nat) (mrs : shr_record) :
  0 <= m -> shifted m k mrs -> shifted m (S k) (shr_1 mrs).
Proof.
  intros Hm (Hq & Hr1 & Hr0 & Hs).
  assert (Hp : 0 < 2 ^ Z.of_nat k) by (apply Z.pow_pos_nonneg; lia).
  assert (Hq0 : 0 <= shr_m mrs) by (rewrite Hq; apply Z.div_pos; lia).
  rewrite shr_1_spec by exact Hq0. unfold shifted. cbn [shr_m shr_r shr_s].
  rewrite Nat2Z.inj_succ, Z.pow_succ_r by lia.
  assert (Hmod : m mod (2 * 2 ^ Z.of_nat k) =
                 m mod 2 ^ Z.of_nat k + 2 ^ Z.of_nat k * ((m / 2 ^ Z.of_nat k) mod 2)).
  { rewrite (Z.mul_comm 2). apply Z.rem_mul_r; lia. }
  rewrite Hmod, Hq.
  pose proof (Z.mod_pos_bound m (2 ^ Z.of_nat k) Hp) as Hlo.
  rewrite (Z.mul_comm 2 (2 ^ Z.of_nat k)), Z.div_div by lia.
  split; [reflexivity|].
  rewrite Hq in *. clear Hq.
  rewrite Zodd_mod. set (b := (m / 2 ^ Z.of_nat k) mod 2) in *.
  assert (Hb : b = 0 \/ b = 1) by (pose proof (Z.mod_pos_bound (m / 2 ^ Z.of_nat k) 2); lia).
  destruct Hb as [-> | ->]; simpl Z.eqb; cbv iota.
  - split; [discriminate|]. split; [intros _; lia|].
    intros Hrs. apply orb_false_iff in Hrs as [Hr Hss]. specialize (Hs Hss). rewrite Hr in Hs. lia.
  - split; [intros _; lia|]. split; [discriminate|].
    intros Hrs. apply orb_false_iff in Hrs as [Hr Hss]. specialize (Hs Hss). rewrite Hr in Hs. lia.
Qed.

Lemma shifted_iter (m : Z) (k : nat) :
  0 <= m -> shifted m k (Nat.iter k shr_1 (Build_shr_record m false false)).
Proof.
  intros Hm. induction k as [|k IH].
  - unfold shifted. simpl. rewrite Z.div_1_r, Z.mod_1_r. repeat split; try discriminate; lia.
  - simpl Nat.iter. apply shifted_step; assumption.
Qed.

Lemma shr_exact_shifted (m e n : Z) :
  0 <= m -> 0 < n ->
  shifted m (Z.to_nat n) (fst (shr (Build_shr_record m false false) e n)) /\
  snd (shr (Build_shr_record m false false) e n) = e + n.
Proof.
  intros Hm Hn. destruct n as [|p|p]; try lia. simpl.
  split; [|reflexivity]. rewrite iter_pos_nat. apply shifted_iter, Hm.
Qed.

(** Rounding to nearest of [hi * 2 ^ k + lo]: the error is at most half of
    [2 ^ k]. *)
Lemma round_shifted_nearest (m : Z) (k : nat) (mrs : shr_record) :
  0 <= m -> shifted m k mrs ->
  let M := round_nearest_even (shr_m mrs) (loc_of_shr_record mrs) in
  m / 2 ^ Z.of_nat k <= M <= m / 2 ^ Z.of_nat k + 1 /\
  2 * Z.abs (M * 2 ^ Z.of_nat k - m) <= 2 ^ Z.of_nat k.
Proof.
  intros Hm (Hq & Hr1 & Hr0 & Hs) M.
  assert (Hp : 0 < 2 ^ Z.of_nat k) by (apply Z.pow_pos_nonneg; lia).
  pose proof (Z.div_mod m (2 ^ Z.of_nat k) ltac:(lia)) as Hdm.
  pose proof (Z.mod_pos_bound m (2 ^ Z.of_nat k) Hp) as Hlo.
  pose proof (round_nearest_even_bounds (shr_m mrs) (loc_of_shr_record mrs)) as HM.
  fold M in HM. rewrite Hq in HM. split; [exact HM|].
  subst M. rewrite Hq in *.
  set (hi := m / 2 ^ Z.of_nat k) in *. set (lo := m mod 2 ^ Z.of_nat k) in *.
  destruct mrs as [mm [] []]; cbn [shr_m shr_r shr_s loc_of_shr_record round_nearest_even] in *.
  - specialize (Hr1 eq_refl). nia.
  - specialize (Hs eq_refl). destruct (Z.even hi); nia.
  - specialize (Hr0 eq_refl). nia.
  - specialize (Hs eq_refl). nia.
Qed.

(** *** The second normalisation of [binary_round_aux] *)

Lemma Zdigits2_le (m d : Z) : 0 <= m < 2 ^ d -> 0 <= d -> Zdigits2 m <= d.
Proof.
  intros [H0 Hm] Hd. destruct (Z.eq_dec m 0) as [->|Hne]; [simpl; lia|].
  pose proof (Zdigits2_bounds m ltac:(lia)) as [Hlo _].
  destruct (Z.le_gt_cases (Zdigits2 m) d) as [|Hgt]; [assumption|exfalso].
  assert (2 ^ d <= 2 ^ (Zdigits2 m - 1)) by (apply Z.pow_le_mono_r; lia). lia.
Qed.

Lemma shr_fexp_stays (M e : Z) (l : location) :
  0 <= M < 2 ^ 24 -> -149 <= e ->
  shr_fexp F32.prec F32.emax M e l = (shr_record_of_loc M l, e).
Proof.
  intros HM He. unfold shr_fexp. rewrite fexp32.
  pose proof (Zdigits2_le M 24 HM ltac:(lia)).
  destruct (Z.max (Zdigits2 M + e - 24) (-149) - e) eqn:Hn; try reflexivity. lia.
Qed.

Lemma shr_fexp_carry (e : Z) :
  -149 <= e ->
  shr_fexp F32.prec F32.emax (2 ^ 24) e loc_Exact = (Build_shr_record (2 ^ 23) false false, e + 1).
Proof.
  intros He. unfold shr_fexp. rewrite fexp32.
  change (Zdigits2 (2 ^ 24)) with 25.
  replace (Z.max (25 + e - 24) (-149) - e) with 1 by lia. reflexivity.
Qed.

Lemma binary_round_aux_normalize (m e : Z) (l : location) :
  let mrs := fst (shr_fexp F32.prec F32.emax m e l) in
  let e1 := snd (shr_fexp F32.prec F32.emax m e l) in
  let M := round_nearest_even (shr_m mrs) (loc_of_shr_record mrs) in
  0 <= M <= 2 ^ 24 -> -149 <= e1 <= 103 ->
  binary_round_aux F32.prec F32.emax false m e l = normalize24 M e1.
Proof.
  intros mrs e1 M HM He. unfold binary_round_aux.
  subst mrs e1 M. destruct (shr_fexp F32.prec F32.emax m e l) as [mrs e1].
  cbn [fst snd] in *. unfold normalize24.
  destruct (Z.eqb_spec (round_nearest_even (shr_m mrs) (loc_of_shr_record mrs)) (2 ^ 24)) as [Heq|Hne].
  - rewrite Heq, shr_fexp_carry by lia. cbn [shr_m].
    change (2 ^ 23) with (Z.pos 8388608). cbv iota.
    replace (e1 + 1 <=? F32.emax - F32.prec) with true; [reflexivity|].
    symmetry. apply Z.leb_le. change (F32.emax - F32.prec) with 104. lia.
  - rewrite shr_fexp_stays by lia. cbn [shr_record_of_loc shr_m].
    destruct (round_nearest_even _ _) as [|p|p]; [reflexivity| |lia].
    replace (e1 <=? F32.emax - F32.prec) with true; [reflexivity|].
    symmetry. apply Z.leb_le. change (F32.emax - F32.prec) with 104. lia.
Qed.

(** *** Conversion of a positive integer *)

Lemma pow2_split (a b : Z) : 0 <= a -> 0 <= b -> 2 ^ (a + b) = 2 ^ a * 2 ^ b.
Proof. intros. apply Z.pow_add_r; assumption. Qed.

Lemma of_Z_spec (n : Z) :
  0 < n < 2 ^ 31 ->
  let k := Zdigits2 n - 24 in
  exists M, 2 ^ 23 <= M <= 2 ^ 24 /\ -23 <= k <= 7 /\
    (k <= 0 -> M = n * 2 ^ (- k) /\ M < 2 ^ 24) /\
    (0 < k -> 2 * Z.abs (M * 2 ^ k - n) <= 2 ^ k) /\
    F32.of_Z n = normalize24 M k.
Proof.
  intros [Hn0 Hn] k.
  pose proof (Zdigits2_bounds n Hn0) as [Hlo Hhi].
  assert (Hd1 : 0 < Zdigits2 n) by (destruct n; simpl; lia).
  assert (Hd : Zdigits2 n <= 31) by (apply Zdigits2_le; lia).
  destruct n as [|p|p]; try lia. cbn [Zdigits2] in *.
  unfold F32.of_Z. cbn [binary_normalize]. unfold binary_round. rewrite fexp32.
  rewrite Z.add_0_r.
  replace (Z.max (Z.pos (digits2_pos p) - 24) (-149)) with k by (unfold k; lia).
  destruct (Z.le_gt_cases k 0) as [Hk|Hk].
  - destruct (shl_align_spec p 0 k Hk) as [He Hm].
    destruct (shl_align p 0 k) as [mz ez]. cbn [fst snd] in He, Hm. subst ez.
    rewrite Z.sub_0_l in Hm.
    assert (Hp : 0 < 2 ^ (- k)) by (apply Z.pow_pos_nonneg; lia).
    assert (Hmz : 2 ^ 23 <= Z.pos mz < 2 ^ 24).
    { rewrite Hm. split.
      - replace 23 with ((Z.pos (digits2_pos p) - 1) + - k) by (unfold k; lia).
        rewrite pow2_split by lia. nia.
      - replace 24 with (Z.pos (digits2_pos p) + - k) by (unfold k; lia).
        rewrite pow2_split by lia. nia. }
    exists (Z.pos mz). split; [lia|]. split; [unfold k; lia|].
    split; [intros _; split; [exact Hm|lia]|]. split; [lia|].
    pose proof (binary_round_aux_normalize (Z.pos mz) k loc_Exact) as Hbr.
    rewrite shr_fexp_stays in Hbr by (unfold k; lia).
    cbn [fst snd shr_record_of_loc shr_m loc_of_shr_record round_nearest_even] in Hbr.
    apply Hbr; unfold k; lia.
  - rewrite shl_align_ge by lia.
    assert (Hpk : 0 < 2 ^ k) by (apply Z.pow_pos_nonneg; lia).
    pose proof (binary_round_aux_normalize (Z.pos p) 0 loc_Exact) as Hbr.
    unfold shr_fexp in Hbr. rewrite fexp32 in Hbr. cbn [Zdigits2] in Hbr.
    rewrite Z.add_0_r, Z.sub_0_r in Hbr.
    replace (Z.max (Z.pos (digits2_pos p) - 24) (-149)) with k in Hbr by (unfold k; lia).
    cbn [shr_record_of_loc] in Hbr.
    destruct (shr_exact_shifted (Z.pos p) 0 k ltac:(lia) Hk) as [Hsh He1].
    destruct (shr (Build_shr_record (Z.pos p) false false) 0 k) as [mrs e1].
    cbn [fst snd] in *. subst e1. rewrite Z.add_0_l in Hbr.
    destruct (round_shifted_nearest (Z.pos p) (Z.to_nat k) mrs ltac:(lia) Hsh) as [HM Herr].
    rewrite Z2Nat.id in HM, Herr by lia.
    assert (Hhi23 : 2 ^ 23 <= Z.pos p / 2 ^ k < 2 ^ 24).
    { split.
      - apply Z.div_le_lower_bound; [lia|]. rewrite <- pow2_split by lia.
        replace (k + 23) with (Z.pos (digits2_pos p) - 1) by (unfold k; lia). exact Hlo.
      - apply Z.div_lt_upper_bound; [lia|]. rewrite <- pow2_split by lia.
        replace (k + 24) with (Z.pos (digits2_pos p)) by (unfold k; lia). exact Hhi. }
    exists (round_nearest_even (shr_m mrs) (loc_of_shr_record mrs)).
    split; [lia|]. split; [unfold k; lia|]. split; [lia|]. split; [intros _; exact Herr|].
    apply Hbr; unfold k; lia.
Qed.

Lemma normalize24_normal (M k : Z) :
  2 ^ 23 <= M <= 2 ^ 24 -> -23 <= k <= 7 ->
  exists m e, normalize24 M k = S754_finite false m e /\ normal24 m e /\
    ((M = 2 ^ 24 /\ Z.pos m = 2 ^ 23 /\ e = k + 1) \/ (M < 2 ^ 24 /\ Z.pos m = M /\ e = k)).
Proof.
  intros HM Hk. unfold normalize24, normal24.
  destruct (Z.eqb_spec M (2 ^ 24)) as [->|Hne].
  - exists 8388608%positive, (k + 1). split; [reflexivity|]. split; [lia|]. left. auto.
  - destruct M as [|p|p]; try lia.
    exists p, k. split; [reflexivity|]. split; [lia|]. right. lia.
Qed.

Lemma Zdigits2_mono (n N : Z) : 0 < n <= N -> Zdigits2 n <= Zdigits2 N.
Proof.
  intros [H0 H].
  pose proof (Zdigits2_bounds n H0) as [Hlo _].
  pose proof (Zdigits2_bounds N ltac:(lia)) as [_ Hhi].
  assert (0 < Zdigits2 N) by (destruct N; simpl; lia).
  destruct (Z.le_gt_cases (Zdigits2 n) (Zdigits2 N)) as [|Hgt]; [assumption|exfalso].
  assert (2 ^ Zdigits2 N <= 2 ^ (Zdigits2 n - 1)) by (apply Z.pow_le_mono_r; lia). lia.
Qed.

(** Conversion is monotone: in the order on (exponent, mantissa). *)
Lemma of_Z_le (n N : Z) :
  0 < n <= N -> N < 2 ^ 31 ->
  exists ma ea mb eb,
    F32.of_Z n = S754_finite false ma ea /\ F32.of_Z N = S754_finite false mb eb /\
    normal24 ma ea /\ normal24 mb eb /\
    (ea < eb \/ (ea = eb /\ Z.pos ma <= Z.pos mb)).
Proof.
  intros [Hn0 HnN] HN.
  destruct (of_Z_spec n ltac:(lia)) as (Ma & HMa & Hka & Hexa & Herra & Ha).
  destruct (of_Z_spec N ltac:(lia)) as (Mb & HMb & Hkb & Hexb & Herrb & Hb).
  pose proof (Zdigits2_mono n N ltac:(lia)) as Hdig.
  set (ka := Zdigits2 n - 24) in *. set (kb := Zdigits2 N - 24) in *.
  destruct (normalize24_normal Ma ka HMa Hka) as (ma & ea & Hfa & Hna & Hca).
  destruct (normalize24_normal Mb kb HMb Hkb) as (mb & eb & Hfb & Hnb & Hcb).
  exists ma, ea, mb, eb. rewrite Ha, Hb. repeat split; try assumption; try apply Hna; try apply Hnb.
  destruct (Z.eq_dec n N) as [->|Hne].
  { right. rewrite Ha in Hb. rewrite Hfa in Hb. rewrite Hfb in Hb. injection Hb as -> ->. lia. }
  assert (Hk : ka <= kb) by (unfold ka, kb; lia).
  destruct (Z.eq_dec ka kb) as [Heq|Hlt].
  - assert (HM : Ma <= Mb).
    { destruct (Z.le_gt_cases ka 0) as [Hk0|Hk0].
      - destruct (Hexa Hk0) as [-> _]. destruct (Hexb ltac:(lia)) as [-> _]. rewrite Heq.
        apply Z.mul_le_mono_nonneg_r; [apply Z.pow_nonneg|]; lia.
      - specialize (Herra Hk0). specialize (Herrb ltac:(lia)). rewrite <- Heq in Herrb.
        assert (0 < 2 ^ ka) by (apply Z.pow_pos_nonneg; lia). nia. }
    destruct Hca as [(? & ? & ?)|(? & ? & ?)], Hcb as [(? & ? & ?)|(? & ? & ?)]; lia.
  - destruct Hca as [(? & ? & ?)|(? & ? & ?)], Hcb as [(? & ? & ?)|(? & ? & ?)]; lia.
Qed.

(** *** Quotients of at most one *)

Lemma div_eucl_div_mod (a b : Z) : Z.div_eucl a b = (a / b, a mod b).
Proof. unfold Z.div, Z.modulo. destruct (Z.div_eucl a b); reflexivity. Qed.

Lemma SFdiv_core_normal (ma mb : positive) (ea eb : Z) :
  normal24 ma ea -> normal24 mb eb ->
  SFdiv_core_binary F32.prec F32.emax (Z.pos ma) ea (Z.pos mb) eb =
  (Z.pos ma * 2 ^ 24 / Z.pos mb, ea - eb - 24,
   new_location (Z.pos mb) ((Z.pos ma * 2 ^ 24) mod Z.pos mb)).
Proof.
  intros [Hma Hea] [Hmb Heb]. unfold SFdiv_core_binary.
  rewrite (Zdigits2_unique (Z.pos ma) 24), (Zdigits2_unique (Z.pos mb) 24) by (simpl; lia).
  rewrite fexp32.
  replace (Z.min (Z.max (24 + ea - (24 + eb) - 24) (-149)) (ea - eb)) with (ea - eb - 24) by lia.
  replace (ea - eb - (ea - eb - 24)) with 24 by lia.
  cbv iota. rewrite Z.shiftl_mul_pow2 by lia. rewrite div_eucl_div_mod. reflexivity.
Qed.

Lemma binary_round_aux_le_one (q e : Z) (l : location) :
  0 < q < 2 ^ (- e) -> -149 <= e <= -24 ->
  F32.leb (binary_round_aux F32.prec F32.emax false q e l) F32.one = true.
Proof.
  intros [Hq0 Hq] He.
  pose proof (Zdigits2_le q (- e) ltac:(lia) ltac:(lia)) as Hdq.
  pose proof (Zdigits2_bounds q Hq0) as [Hlo Hhi].
  assert (Hgoal : forall M e1, 0 <= M <= 2 ^ 24 -> -149 <= e1 <= -24 ->
            F32.leb (normalize24 M e1) F32.one = true).
  { intros M e1 HM He1. unfold normalize24.
    destruct (Z.eqb_spec M (2 ^ 24)) as [->|Hne].
    - unfold F32.leb, SFleb, F32.one, SFcompare.
      destruct (Z.compare_spec (e1 + 1) (-23)); try reflexivity; lia.
    - destruct M as [|p|p]; try reflexivity; try lia.
      unfold F32.leb, SFleb, F32.one, SFcompare.
      destruct (Z.compare_spec e1 (-23)); try reflexivity; lia. }
  pose proof (binary_round_aux_normalize q e l) as Hbr. cbv zeta in Hbr.
  destruct (Z.le_gt_cases (Zdigits2 q) 24) as [Hd|Hd].
  - assert (Hq24 : q < 2 ^ 24).
    { assert (2 ^ Zdigits2 q <= 2 ^ 24) by (apply Z.pow_le_mono_r; lia). lia. }
    rewrite shr_fexp_stays in Hbr by lia. cbn [fst snd] in Hbr.
    rewrite shr_record_of_loc_m in Hbr.
    pose proof (round_nearest_even_bounds q (loc_of_shr_record (shr_record_of_loc q l))) as HM.
    rewrite Hbr by lia. apply Hgoal; lia.
  - unfold shr_fexp in Hbr. rewrite fexp32 in Hbr.
    set (n := Z.max (Zdigits2 q + e - 24) (-149) - e) in *.
    assert (Hn : n = Zdigits2 q - 24) by lia.
    destruct (shr_m_spec (shr_record_of_loc q l) e n) as [Hm He1];
      [rewrite shr_record_of_loc_m; lia|].
    rewrite shr_record_of_loc_m, Z.max_r in Hm by lia. rewrite Z.max_r in He1 by lia.
    destruct (shr (shr_record_of_loc q l) e n) as [mrs e1]. cbn [fst snd] in *.
    pose proof (round_nearest_even_bounds (shr_m mrs) (loc_of_shr_record mrs)) as HM.
    assert (Hpn : 0 < 2 ^ n) by (apply Z.pow_pos_nonneg; lia).
    assert (Hm1 : 0 <= shr_m mrs < 2 ^ 24).
    { rewrite Hm. split; [apply Z.div_pos; lia|].
      apply Z.div_lt_upper_bound; [lia|]. rewrite <- pow2_split by lia.
      replace (n + 24) with (Zdigits2 q) by lia. exact Hhi. }
    rewrite Hbr by lia. apply Hgoal; lia.
Qed.

Lemma new_location_zero (n : Z) : new_location n 0 = loc_Exact.
Proof. unfold new_location. destruct (Z.even n); reflexivity. Qed.

Lemma div_normal_range (ma mb : positive) (ea eb : Z) :
  normal24 ma ea -> normal24 mb eb ->
  ea < eb \/ (ea = eb /\ Z.pos ma <= Z.pos mb) ->
  let q := F32.div (S754_finite false ma ea) (S754_finite false mb eb) in
  F32.leb F32.zero q = true /\ F32.leb q F32.one = true.
Proof.
  intros Ha Hb Hle q. subst q. unfold F32.div, SFdiv.
  rewrite (SFdiv_core_normal ma mb ea eb Ha Hb). cbn [xorb].
  destruct Ha as [Hma Hea], Hb as [Hmb Heb].
  assert (Hq : 2 ^ 23 <= Z.pos ma * 2 ^ 24 / Z.pos mb).
  { apply Z.div_le_lower_bound; lia. }
  split.
  - apply (strictly_signed_leb_zero false), binary_round_aux_signed; lia.
  - destruct (Z.eq_dec ea eb) as [He|He];
      [destruct (Pos.eq_dec ma mb) as [Hm|Hm]|].
    + subst. rewrite (Z.mul_comm (Z.pos mb)), Z.div_mul, Z_mod_mult, new_location_zero by lia.
      replace (eb - eb - 24) with (-24) by lia. reflexivity.
    + apply binary_round_aux_le_one; [|lia]. split; [lia|].
      replace (- (ea - eb - 24)) with 24 by lia.
      apply Z.div_lt_upper_bound; [lia|].
      assert (Z.pos ma <> Z.pos mb) by congruence. nia.
    + apply binary_round_aux_le_one; [|lia]. split; [lia|].
      assert (2 ^ 25 <= 2 ^ (- (ea - eb - 24))) by (apply Z.pow_le_mono_r; lia).
      assert (Z.pos ma * 2 ^ 24 / Z.pos mb < 2 ^ 25); [|lia].
      apply Z.div_lt_upper_bound; [lia|]. nia.
Qed.

(** The quotient of two converted counts, [c <= n], lies between 0 and 1. *)
Lemma ratio_range (c n : Z) :
  0 <= c <= n -> 0 < n < 2 ^ 31 ->
  F32.leb F32.zero (F32.div (F32.of_Z c) (F32.of_Z n)) = true /\
  F32.leb (F32.div (F32.of_Z c) (F32.of_Z n)) F32.one = true.
Proof.
  intros Hc Hn. destruct (Z.eq_dec c 0) as [->|Hc0].
  - destruct (of_Z_le n n ltac:(lia) ltac:(lia)) as (m & e & _ & _ & -> & _).
    split; reflexivity.
  - destruct (of_Z_le c n ltac:(lia) ltac:(lia)) as (ma & ea & mb & eb & -> & -> & Ha & Hb & Hle).
    apply div_normal_range; assumption.
Qed.

End F32Facts.

Import F32Facts.

(** ** [ratioRectShapeOverlap] *)

Lemma overlap_test_inside (r : Rect) (p : Vector2f) :
  cornersNotInf r = true ->
  validVector (rcol0 r) = true -> validVector (rcol3 r) = true -> validVector p = true ->
  all_ge0 (vsub p (rcol0 r)) && all_le0 (vsub p (rcol3 r)) = insideRect r p.
Proof.
  unfold cornersNotInf, validVector, all_ge0, all_le0, vsub, insideRect. simpl.
  rewrite !andb_true_iff, !negb_true_iff.
  intros [[[I1 I2] I3] I4] [V1 V2] [V3 V4] [V5 V6].
  rewrite !sub_ge0, !sub_le0 by assumption. now rewrite !andb_assoc.
Qed.

Lemma wrap_int_small (n : Z) : - 2 ^ 31 <= n < 2 ^ 31 -> wrap_int n = n.
Proof.
  intros H. unfold wrap_int. rewrite Z.mod_small; lia.
Qed.

Lemma filter_length_le {A : Type} (f : A -> bool) (l : list A) :
  (length (List.filter f l) <= length l)%nat.
Proof. induction l as [|a l IH]; simpl; [lia|]. destruct (f a); simpl; lia. Qed.

Lemma overlap_fold_counts (r : Rect) (s : Shape) : forall acc,
  cornersNotInf r = true ->
  validVector (rcol0 r) = true -> validVector (rcol3 r) = true ->
  Forall (fun p => validVector p = true) s ->
  0 <= acc -> acc + Z.of_nat (length s) < 2 ^ 31 ->
  foldl (overlap_step (rcol0 r) (rcol3 r)) acc s = acc + countInside r s.
Proof.
  induction s as [|p s IH]; intros acc Hinf V0 V3 Hs Hacc Hlen.
  - unfold countInside. simpl. lia.
  - apply Forall_cons in Hs as [Hp Hs]. simpl foldl. unfold overlap_step at 2.
    rewrite overlap_test_inside by assumption.
    unfold countInside. simpl List.filter. simpl length in Hlen.
    pose proof (filter_length_le (insideRect r) s).
    destruct (insideRect r p).
    + rewrite wrap_int_small by lia. rewrite IH by (try assumption; lia).
      unfold countInside. simpl length. lia.
    + rewrite IH by (try assumption; lia). reflexivity.
Qed.

(** ** The search for the best candidate *)

Lemma bestInv_nil (s : Shape) : bestInv s [] SIZE_MAX F32.zero.
Proof. left. repeat split. intros f Hf. inversion Hf. Qed.

Lemma bestInv_step (s : Shape) (pre : list Rect) (f : Rect) (bestId : Z) (bestOverlap : float) :
  Z.of_nat (length pre) < SIZE_MAX ->
  bestInv s pre bestId bestOverlap ->
  let o := ratioRectShapeOverlap f s in
  if F32.ltb bestOverlap o
  then bestInv s (pre ++ [f]) (Z.of_nat (length pre)) o
  else bestInv s (pre ++ [f]) bestId bestOverlap.
Proof.
  intros Hlen Hinv o. destruct (F32.ltb bestOverlap o) eqn:Hlt.
  - right. rewrite length_app. simpl. split; [lia|].
    rewrite Nat2Z.id. split.
    { exists f. split; [|reflexivity]. rewrite lookup_app_r by lia.
      now rewrite Nat.sub_diag. }
    assert (Hpos : F32.ltb F32.zero o = true).
    { destruct Hinv as [(_ & -> & _)|(_ & _ & H0 & _)]; [exact Hlt|].
      eapply ltb_leb_trans; [exact H0|]. now apply ltb_leb. }
    split; [exact Hpos|]. split.
    + intros g Hg. apply elem_of_app in Hg as [Hg|Hg].
      * destruct (F32.ltb o (ratioRectShapeOverlap g s)) eqn:Hog; [|reflexivity].
        exfalso.
        assert (F32.ltb bestOverlap (ratioRectShapeOverlap g s) = true)
          by (eapply ltb_leb_trans; [exact Hlt|now apply ltb_leb]).
        destruct Hinv as [(_ & -> & Hall)|(_ & _ & _ & Hall & _)];
          rewrite (Hall g Hg) in H; discriminate.
      * apply list_elem_of_singleton in Hg as ->. apply ltb_irrefl.
    + intros k g Hk Hg.
      rewrite lookup_app_l in Hg by lia.
      destruct (F32.leb o (ratioRectShapeOverlap g s)) eqn:Hog; [|reflexivity].
      exfalso.
      assert (F32.ltb bestOverlap (ratioRectShapeOverlap g s) = true)
        by (eapply ltb_leb_trans; [exact Hlt|exact Hog]).
      assert (Hin : g ∈ pre) by (eapply list_elem_of_lookup_2; exact Hg).
      destruct Hinv as [(_ & -> & Hall)|(_ & _ & _ & Hall & _)];
        rewrite (Hall g Hin) in H; discriminate.
  - destruct Hinv as [(-> & -> & Hall)|(Hrange & (fb & Hfb & Hfbo) & H0 & Hall & Hearly)].
    + left. repeat split. intros g Hg. apply elem_of_app in Hg as [Hg|Hg]; [now apply Hall|].
      apply list_elem_of_singleton in Hg as ->. exact Hlt.
    + right. rewrite length_app. simpl. split; [lia|]. split.
      { exists fb. split; [|exact Hfbo]. rewrite lookup_app_l by lia. exact Hfb. }
      split; [exact H0|]. split.
      * intros g Hg. apply elem_of_app in Hg as [Hg|Hg]; [now apply Hall|].
        apply list_elem_of_singleton in Hg as ->. exact Hlt.
      * intros k g Hk Hg. rewrite lookup_app_l in Hg by lia. eapply Hearly; eauto.
Qed.

Lemma findBest_inv (s : Shape) (rest pre : list Rect) (bestId : Z) (bestOverlap : float) :
  Z.of_nat (length (pre ++ rest)) <= SIZE_MAX ->
  bestInv s pre bestId bestOverlap ->
  bestInv s (pre ++ rest)
    (fst (findBest s rest (Z.of_nat (length pre)) bestId bestOverlap))
    (snd (findBest s rest (Z.of_nat (length pre)) bestId bestOverlap)).
Proof.
  revert pre bestId bestOverlap.
  induction rest as [|f rest IH]; intros pre bestId bestOverlap Hlen Hinv.
  - rewrite app_nil_r. exact Hinv.
  - simpl. rewrite length_app in Hlen. simpl in Hlen.
    pose proof (bestInv_step s pre f bestId bestOverlap ltac:(lia) Hinv) as Hstep.
    simpl in Hstep.
    replace (Z.of_nat (length pre) + 1) with (Z.of_nat (length (pre ++ [f])))
      by (rewrite length_app; simpl; lia).
    replace (pre ++ f :: rest) with ((pre ++ [f]) ++ rest) by (now rewrite <- app_assoc).
    destruct (F32.ltb bestOverlap (ratioRectShapeOverlap f s)).
    + specialize (IH (pre ++ [f]) (Z.of_nat (length pre)) (ratioRectShapeOverlap f s)).
      apply IH; [rewrite !length_app; simpl; lia|exact Hstep].
    + apply IH; [rewrite !length_app; simpl; lia|exact Hstep].
Qed.

Lemma bestCandidate_inv (s : Shape) (faces : list Rect) :
  Z.of_nat (length faces) <= SIZE_MAX ->
  bestInv s faces (fst (bestCandidate s faces)) (snd (bestCandidate s faces)).
Proof.
  intros Hlen. unfold bestCandidate.
  exact (findBest_inv s faces [] SIZE_MAX F32.zero Hlen (bestInv_nil s)).
Qed.


Section RectToolFacts.

Context {Image FaceDetector : Type}.
Variable image_cols image_rows : Image -> Z.
Variable detectFaces : FaceDetector -> Image -> list Rect.
Variable shapeBounds : Shape -> Rect.

Local Abbreviation processImage := (processImage image_cols image_rows detectFaces shapeBounds).
Local Abbreviation mainLoop := (mainLoop image_cols image_rows detectFaces shapeBounds).
Local Abbreviation main := (main image_cols image_rows detectFaces shapeBounds).
Local Abbreviation exportedRect :=
  (exportedRect image_cols image_rows detectFaces shapeBounds).
Local Abbreviation collectFaces := (collectFaces detectFaces).

Lemma processImage_exported matchCV detectors inputs i rs n rs' n' :
  processImage matchCV detectors inputs i (rs, n) = Some (rs', n') ->
  exists r, exportedRect matchCV detectors inputs i = Some r /\ rs' = <[i := r]> rs.
Proof.
  unfold processImage, exportedRect, fallbackTaken.
  destruct (images inputs !! i) as [img|]; simpl; [|discriminate].
  destruct (shapes inputs !! i) as [s|]; simpl; [|discriminate].
  destruct (scalings inputs !! i) as [c|]; simpl; [|discriminate].
  destruct (bestCandidate s _) as [bestId bestOverlap]; simpl.
  destruct ((bestId =? SIZE_MAX) || F32.ltb bestOverlap F32.f0_3); simpl.
  - intros [= <- <-]. eauto.
  - destruct (_ !! Z.to_nat bestId); simpl; [|discriminate]. intros [= <- <-]. eauto.
Qed.

Lemma processImage_total matchCV detectors inputs i rs n r :
  exportedRect matchCV detectors inputs i = Some r ->
  exists n', processImage matchCV detectors inputs i (rs, n) = Some (<[i := r]> rs, n').
Proof.
  unfold processImage, exportedRect, fallbackTaken.
  destruct (images inputs !! i) as [img|]; simpl; [|discriminate].
  destruct (shapes inputs !! i) as [s|]; simpl; [|discriminate].
  destruct (scalings inputs !! i) as [c|]; simpl; [|discriminate].
  destruct (bestCandidate s _) as [bestId bestOverlap]; simpl.
  destruct ((bestId =? SIZE_MAX) || F32.ltb bestOverlap F32.f0_3); simpl.
  - intros [= <-]. eauto.
  - destruct (_ !! Z.to_nat bestId); simpl; [|discriminate]. intros [= <-]. eauto.
Qed.

Lemma mainLoop_S matchCV detectors inputs n i st :
  mainLoop matchCV detectors inputs (S n) i st =
  st' ← processImage matchCV detectors inputs i st;
  mainLoop matchCV detectors inputs n (S i) st'.
Proof. reflexivity. Qed.

Lemma mainLoop_exported matchCV detectors inputs n : forall i rs c out c',
  mainLoop matchCV detectors inputs n i (rs, c) = Some (out, c') ->
  length out = length rs /\
  (forall k, (i <= k < i + n)%nat -> (k < length rs)%nat ->
      is_Some (out !! k) /\ out !! k = exportedRect matchCV detectors inputs k) /\
  (forall k, (k < i \/ i + n <= k)%nat -> out !! k = rs !! k).
Proof.
  induction n as [|n IH]; intros i rs c out c' H.
  - injection H as <- <-. split; [reflexivity|]. split; [lia|reflexivity].
  - rewrite mainLoop_S in H.
    destruct (processImage matchCV detectors inputs i (rs, c)) as [[rs1 c1]|] eqn:Hp;
      simpl in H; [|discriminate].
    apply processImage_exported in Hp as (r & Hr & ->).
    apply IH in H as (Hlen & Hin & Hout).
    rewrite length_insert in Hlen, Hin. split; [exact Hlen|]. split.
    + intros k Hk Hlt. destruct (decide (k = i)) as [->|Hne].
      * rewrite Hout by lia. rewrite list_lookup_insert_eq by lia. rewrite Hr. eauto.
      * apply Hin; lia.
    + intros k Hk. rewrite Hout by lia. apply list_lookup_insert_ne. lia.
Qed.

Lemma main_exported matchCV detectors inputs out cnt :
  main matchCV detectors inputs = Some (out, cnt) ->
  length out = length (rects inputs) /\
  forall i, (i < length (rects inputs))%nat ->
    is_Some (out !! i) /\ out !! i = exportedRect matchCV detectors inputs i.
Proof.
  intros H. apply mainLoop_exported in H as (Hlen & Hin & _).
  split; [exact Hlen|]. intros i Hi. apply Hin; lia.
Qed.

Lemma mainLoop_total matchCV detectors inputs n : forall i st,
  (forall k, (i <= k < i + n)%nat -> is_Some (exportedRect matchCV detectors inputs k)) ->
  is_Some (mainLoop matchCV detectors inputs n i st).
Proof.
  induction n as [|n IH]; intros i [rs c] H; [simpl; eauto|].
  rewrite mainLoop_S.
  destruct (H i ltac:(lia)) as [r Hr].
  destruct (processImage_total matchCV detectors inputs i rs c r Hr) as [n' ->]. simpl.
  apply IH. intros k Hk. apply H. lia.
Qed.

Lemma exportedRect_total matchCV detectors inputs i img s c :
  images inputs !! i = Some img -> shapes inputs !! i = Some s ->
  scalings inputs !! i = Some c ->
  Z.of_nat (length (collectFaces detectors img)) <= SIZE_MAX ->
  is_Some (exportedRect matchCV detectors inputs i).
Proof.
  intros Hi Hs Hc Hlen. unfold exportedRect. rewrite Hi, Hs, Hc. simpl.
  destruct (fallbackTaken s _) eqn:Hf; [eauto|].
  pose proof (bestCandidate_inv s _ Hlen) as Hinv.
  unfold fallbackTaken in Hf.
  destruct (bestCandidate s _) as [bestId bestOverlap]; simpl in *.
  apply orb_false_iff in Hf as [Hne _]. apply Z.eqb_neq in Hne.
  destruct Hinv as [(? & _)|(_ & (fb & -> & _) & _)]; [contradiction|]. simpl. eauto.
Qed.

End RectToolFacts.

(** ** The loop over the images *)

Section RectToolClaims.

Context {Image FaceDetector : Type}.
Variable image_cols image_rows : Image -> Z.
Variable detectFaces : FaceDetector -> Image -> list Rect.
Variable shapeBounds : Shape -> Rect.

Local Abbreviation main := (main image_cols image_rows detectFaces shapeBounds).
Local Abbreviation fallbackRect := (fallbackRect image_cols image_rows shapeBounds).
Local Abbreviation collectFaces := (collectFaces detectFaces).
Local Abbreviation exportedRect :=
  (exportedRect image_cols image_rows detectFaces shapeBounds).
Local Abbreviation consistent := (consistent detectFaces).

(** The loop runs to its end on a consistent database. *)
Lemma main_total matchCV detectors inputs :
  consistent detectors inputs -> is_Some (main matchCV detectors inputs).
Proof.
  intros (Hi & Hs & Hc & Hfaces). apply mainLoop_total. intros k Hk.
  destruct (lookup_lt_is_Some_2 (images inputs) k ltac:(lia)) as [img Himg].
  destruct (lookup_lt_is_Some_2 (shapes inputs) k ltac:(lia)) as [s Hsh].
  destruct (lookup_lt_is_Some_2 (scalings inputs) k ltac:(lia)) as [c Hsc].
  eapply exportedRect_total; eauto. apply Hfaces.
  eapply list_elem_of_lookup_2; exact Himg.
Qed.

(** What [main] leaves at index [i], by the branch taken. *)
Lemma main_branches matchCV detectors inputs out cnt i img s c :
  main matchCV detectors inputs = Some (out, cnt) ->
  (i < length (rects inputs))%nat ->
  images inputs !! i = Some img -> shapes inputs !! i = Some s ->
  scalings inputs !! i = Some c ->
  let faces := collectFaces detectors img in
  if fallbackTaken s faces
  then out !! i = Some (rect_div (fallbackRect matchCV img s) c)
  else exists f, faces !! Z.to_nat (fst (bestCandidate s faces)) = Some f /\
                 out !! i = Some (rect_div f c).
Proof.
  intros Hmain Hi Himg Hs Hc faces.
  apply main_exported in Hmain as (_ & Hout).
  destruct (Hout i Hi) as ([r Hr] & Hexp). rewrite Hr in Hexp. symmetry in Hexp.
  unfold exportedRect in Hexp. rewrite Himg, Hs, Hc in Hexp. simpl in Hexp.
  fold faces in Hexp. destruct (fallbackTaken s faces).
  - now rewrite Hr, <- Hexp.
  - destruct (faces !! _) as [f|]; simpl in Hexp; [|discriminate].
    exists f. split; [reflexivity|]. now rewrite Hr, <- Hexp.
Qed.

Lemma consistent_faces detectors inputs i img :
  consistent detectors inputs -> images inputs !! i = Some img ->
  Z.of_nat (length (collectFaces detectors img)) <= SIZE_MAX.
Proof.
  intros (_ & _ & _ & H) Himg. apply H. eapply list_elem_of_lookup_2; exact Himg.
Qed.


(** C4.  When some candidate of image [i] has a positive overlap, the loop
    selects a candidate [fb] at an index [bestId]: no candidate has a larger
    overlap ratio, no earlier candidate reaches the ratio of [fb], and when
    the candidate is exported (the fallback is not taken) it is [fb] divided
    by the scaling and its ratio is at least [0.3f]. *)
Theorem exported_candidate_is_first_maximum matchCV detectors inputs i img s c :
  consistent detectors inputs ->
  (i < length (rects inputs))%nat ->
  images inputs !! i = Some img -> shapes inputs !! i = Some s ->
  scalings inputs !! i = Some c ->
  let faces := collectFaces detectors img in
  let o := fun f => ratioRectShapeOverlap f s in
  (exists f, f ∈ faces /\ F32.ltb F32.zero (o f) = true) ->
  exists out cnt (bestId : nat) (fb : Rect),
    main matchCV detectors inputs = Some (out, cnt) /\
    Z.of_nat bestId = fst (bestCandidate s faces) /\
    faces !! bestId = Some fb /\
    (forall f, f ∈ faces -> F32.ltb (o fb) (o f) = false) /\
    (forall k f, (k < bestId)%nat -> faces !! k = Some f -> F32.leb (o fb) (o f) = false) /\
    (fallbackTaken s faces = false ->
       out !! i = Some (rect_div fb c) /\ F32.leb F32.f0_3 (o fb) = true).
Proof.
  intros Hcons Hi Himg Hs Hc faces o (f0 & Hf0 & Hpos).
  destruct (main_total matchCV detectors inputs Hcons) as [[out cnt] Hmain].
  pose proof (main_branches _ _ _ _ _ _ _ _ _ Hmain Hi Himg Hs Hc) as Hbr.
  simpl in Hbr. fold faces in Hbr.
  pose proof (bestCandidate_inv s faces (consistent_faces _ _ _ _ Hcons Himg)) as Hinv.
  unfold fallbackTaken in *.
  destruct (bestCandidate s faces) as [bestId bestOverlap]. simpl in Hinv, Hbr.
  destruct Hinv as [(_ & _ & Hall)|(Hr & (fb & Hfb & Hfbo) & H0 & Hall & Hearly)].
  { unfold o in Hpos. rewrite (Hall f0 Hf0) in Hpos. discriminate. }
  exists out, cnt, (Z.to_nat bestId), fb. unfold o. rewrite Hfbo.
  split; [exact Hmain|]. split; [simpl; lia|].
  split; [exact Hfb|]. split; [exact Hall|]. split.
  - intros k f Hk Hf. apply (Hearly k f); [lia|exact Hf].
  - intros Hno. rewrite Hno in Hbr. destruct Hbr as (f & Hfl & Hout).
    rewrite Hfb in Hfl. injection Hfl as <-. split; [exact Hout|].
    apply orb_false_iff in Hno as [_ Hno].
    apply leb_total; [now apply ltb_not_nan in H0|reflexivity|exact Hno].
Qed.

(** C10.  On a consistent database the loop ends with as many rectangles
    as it was given, and at every index [i] each of the eight coefficients
    of the exported rectangle is the binary32 quotient, by [scalings[i]], of
    the same coefficient of the rectangle of the branch taken: the fallback
    rectangle of the image, or the selected detector candidate. *)
Theorem exported_rects_divided_by_scaling matchCV detectors inputs :
  consistent detectors inputs ->
  exists out cnt, main matchCV detectors inputs = Some (out, cnt) /\
    length out = length (rects inputs) /\
    forall i, (i < length (rects inputs))%nat ->
      exists img s c r,
        images inputs !! i = Some img /\ shapes inputs !! i = Some s /\
        scalings inputs !! i = Some c /\
        (let faces := collectFaces detectors img in
         if fallbackTaken s faces then r = fallbackRect matchCV img s
         else faces !! Z.to_nat (fst (bestCandidate s faces)) = Some r) /\
        out !! i = Some
          (mkRect (F32.div (fst (rcol0 r)) c, F32.div (snd (rcol0 r)) c)
                  (F32.div (fst (rcol1 r)) c, F32.div (snd (rcol1 r)) c)
                  (F32.div (fst (rcol2 r)) c, F32.div (snd (rcol2 r)) c)
                  (F32.div (fst (rcol3 r)) c, F32.div (snd (rcol3 r)) c)).
Proof.
  intros Hcons.
  destruct (main_total matchCV detectors inputs Hcons) as [[out cnt] Hmain].
  exists out, cnt. split; [exact Hmain|].
  pose proof (main_exported _ _ _ _ _ _ _ _ _ Hmain) as (Hlen & Hout).
  split; [exact Hlen|]. intros i Hi.
  destruct (Hout i Hi) as ([r Hr] & Hexp). rewrite Hr in Hexp. symmetry in Hexp.
  unfold exportedRect in Hexp.
  destruct (images inputs !! i) as [img|]; simpl in Hexp; [|discriminate].
  destruct (shapes inputs !! i) as [s|]; simpl in Hexp; [|discriminate].
  destruct (scalings inputs !! i) as [c|]; simpl in Hexp; [|discriminate].
  exists img, s, c. cbv zeta. destruct (fallbackTaken s _).
  - injection Hexp as <-. exists (fallbackRect matchCV img s).
    split; [reflexivity|]. split; [reflexivity|]. split; [reflexivity|].
    split; [reflexivity|exact Hr].
  - destruct (_ !! Z.to_nat _) as [f|] eqn:Hf; simpl in Hexp; [|discriminate].
    injection Hexp as <-. exists f.
    split; [reflexivity|]. split; [reflexivity|]. split; [reflexivity|].
    split; [reflexivity|exact Hr].
Qed.

End RectToolClaims.

Import Example.


Lemma exported_candidate_is_first_maximum_witness :
  let faces := facesOf detectorsA in
  let o := fun f => ratioRectShapeOverlap f shapeA in
  exists out cnt (bestId : nat) (fb : Rect),
    run false detectorsA inputsA = Some (out, cnt) /\
    Z.of_nat bestId = fst (bestCandidate shapeA faces) /\
    faces !! bestId = Some fb /\
    (forall f, f ∈ faces -> F32.ltb (o fb) (o f) = false) /\
    (forall k f, (k < bestId)%nat -> faces !! k = Some f -> F32.leb (o fb) (o f) = false) /\
    (fallbackTaken shapeA faces = false ->
       out !! 0%nat = Some (rect_div fb (F32.of_Z 2)) /\ F32.leb F32.f0_3 (o fb) = true).
Proof.
  apply (exported_candidate_is_first_maximum cols rows detect tightBounds false detectorsA
           inputsA 0%nat (640, 480) shapeA (F32.of_Z 2)).
  - repeat split; try (simpl; lia). intros img _. vm_compute. discriminate.
  - simpl; lia.
  - reflexivity.
  - reflexivity.
  - reflexivity.
  - exists faceGood. split; [|reflexivity].
    apply list_elem_of_In. vm_compute. auto.
Defined.

Lemma exported_rects_divided_by_scaling_witness :
  exists out cnt, run true detectorsA inputsA = Some (out, cnt) /\
    length out = length (rects inputsA) /\
    forall i, (i < length (rects inputsA))%nat ->
      exists img s c r,
        images inputsA !! i = Some img /\ shapes inputsA !! i = Some s /\
        scalings inputsA !! i = Some c /\
        (let faces := collectFaces detect detectorsA img in
         if fallbackTaken s faces then r = fallbackRect cols rows tightBounds true img s
         else faces !! Z.to_nat (fst (bestCandidate s faces)) = Some r) /\
        out !! i = Some
          (mkRect (F32.div (fst (rcol0 r)) c, F32.div (snd (rcol0 r)) c)
                  (F32.div (fst (rcol1 r)) c, F32.div (snd (rcol1 r)) c)
                  (F32.div (fst (rcol2 r)) c, F32.div (snd (rcol2 r)) c)
                  (F32.div (fst (rcol3 r)) c, F32.div (snd (rcol3 r)) c)).
Proof.
  apply (exported_rects_divided_by_scaling cols rows detect tightBounds true detectorsA inputsA).
  repeat split; try (simpl; lia). intros img _. vm_compute. discriminate.
Defined.

(** ** Shapes without landmarks *)

Lemma findBest_no_landmarks (faces : list Rect) (j : Z) :
  findBest [] faces j SIZE_MAX F32.zero = (SIZE_MAX, F32.zero).
Proof.
  revert j. induction faces as [|f faces IH]; intros j; [reflexivity|].
  simpl. apply IH.
Qed.

Section TwoRuns.

Context {Image : Type}.
Variable image_cols image_rows : Image -> Z.
Variable shapeBounds : Shape -> Rect.


(** C5, amended.  The tool does not reject a shape without landmarks: on
    such a shape [ratioRectShapeOverlap] divides [(float)0] by [(float)0]
    and returns NaN for every candidate, no candidate is selected, the loop
    ends, and the image gets the fallback rectangle divided by its
    scaling. *)
Theorem zero_landmark_shape_not_rejected {FaceDetector : Type}
    (detectFaces : FaceDetector -> Image -> list Rect)
    matchCV detectors (inputs : InputData Image) i img c :
  consistent detectFaces detectors inputs ->
  (i < length (rects inputs))%nat ->
  images inputs !! i = Some img -> shapes inputs !! i = Some [] ->
  scalings inputs !! i = Some c ->
  (forall f, ratioRectShapeOverlap f [] = F32.div (F32.of_Z 0) (F32.of_Z 0) /\
             ratioRectShapeOverlap f [] = F32.nan) /\
  bestCandidate [] (collectFaces detectFaces detectors img) = (SIZE_MAX, F32.zero) /\
  exists out cnt,
    main image_cols image_rows detectFaces shapeBounds matchCV detectors inputs = Some (out, cnt) /\
    out !! i = Some (rect_div (fallbackRect image_cols image_rows shapeBounds matchCV img []) c).
Proof.
  intros Hcons Hi Himg Hs Hc. split; [intros f; split; reflexivity|].
  split; [apply findBest_no_landmarks|].
  destruct (main_total image_cols image_rows detectFaces shapeBounds matchCV detectors
              inputs Hcons) as [[out cnt] Hmain].
  exists out, cnt. split; [exact Hmain|].
  pose proof (main_branches _ _ _ _ _ _ _ _ _ _ _ _ _ Hmain Hi Himg Hs Hc) as Hbr.
  simpl in Hbr. unfold fallbackTaken, bestCandidate in Hbr.
  rewrite findBest_no_landmarks in Hbr. exact Hbr.
Qed.

End TwoRuns.

Lemma zero_landmark_shape_not_rejected_witness :
  (forall f, ratioRectShapeOverlap f [] = F32.div (F32.of_Z 0) (F32.of_Z 0) /\
             ratioRectShapeOverlap f [] = F32.nan) /\
  bestCandidate [] (collectFaces detect detectorsA (64, 64)) = (SIZE_MAX, F32.zero) /\
  exists out cnt,
    run true detectorsA inputsA = Some (out, cnt) /\
    out !! 2%nat = Some (rect_div (fallbackRect cols rows tightBounds true (64, 64) []) F32.one).
Proof.
  apply (zero_landmark_shape_not_rejected cols rows tightBounds detect true detectorsA
           inputsA 2%nat (64, 64) F32.one).
  - repeat split; try (simpl; lia). intros img _. vm_compute. discriminate.
  - simpl; lia.
  - reflexivity.
  - reflexivity.
  - reflexivity.
Defined.

(** C5, as stated, fails: the third image of the example database has a
    shape without landmarks; the run is not rejected, the search evaluates
    the ratio of each of the four candidates on that shape, which is
    [0 / 0], and the image is given its fallback rectangle. *)
Lemma zero_landmark_shape_reaches_division :
  shapes inputsA !! 2%nat = Some [] /\
  length (collectFaces detect detectorsA (64, 64)) = 4%nat /\
  ratioRectShapeOverlap faceGood [] =
    F32.div (F32.of_Z 0) (F32.of_Z (Z.of_nat (length (@nil Vector2f)))) /\
  ratioRectShapeOverlap faceGood [] = F32.nan /\
  exists out cnt,
    run true detectorsA inputsA = Some (out, cnt) /\
    out !! 2%nat = Some (rect_div (fallbackRect cols rows tightBounds true (64, 64) []) F32.one).
Proof.
  repeat split. eexists _, _. split; vm_compute; reflexivity.
Qed.

(** ** The overlap ratio *)

(** C1, amended.  For a rectangle whose corners in columns 0 and 3 have no
    infinite coordinate and a shape of at least one and fewer than [2^31]
    landmarks, [ratioRectShapeOverlap] is the quotient, in binary32, of the
    number of landmarks whose coordinates lie between those of the two
    corners (boundary included) by the number of landmarks; that number of
    landmarks is at most the total, and the quotient is between 0 and 1. *)
Theorem ratioRectShapeOverlap_counts (r : Rect) (s : Shape) :
  cornersNotInf r = true ->
  validVector (rcol0 r) = true -> validVector (rcol3 r) = true ->
  Forall (fun p => validVector p = true) s ->
  0 < Z.of_nat (length s) < 2 ^ 31 ->
  ratioRectShapeOverlap r s =
    F32.div (F32.of_Z (countInside r s)) (F32.of_Z (Z.of_nat (length s))) /\
  0 <= countInside r s <= Z.of_nat (length s) /\
  F32.leb F32.zero (ratioRectShapeOverlap r s) = true /\
  F32.leb (ratioRectShapeOverlap r s) F32.one = true.
Proof.
  intros Hinf V0 V3 Hs Hlen.
  assert (Hc : 0 <= countInside r s <= Z.of_nat (length s)).
  { unfold countInside. pose proof (filter_length_le (insideRect r) s). lia. }
  assert (Heq : ratioRectShapeOverlap r s =
                F32.div (F32.of_Z (countInside r s)) (F32.of_Z (Z.of_nat (length s)))).
  { unfold ratioRectShapeOverlap. cbv zeta.
    rewrite (overlap_fold_counts r s 0) by (try assumption; lia). reflexivity. }
  split; [exact Heq|]. split; [exact Hc|]. rewrite Heq. apply ratio_range; lia.
Qed.

Lemma ratioRectShapeOverlap_counts_witness :
  ratioRectShapeOverlap faceGood shapeA =
    F32.div (F32.of_Z (countInside faceGood shapeA)) (F32.of_Z (Z.of_nat (length shapeA))) /\
  0 <= countInside faceGood shapeA <= Z.of_nat (length shapeA) /\
  F32.leb F32.zero (ratioRectShapeOverlap faceGood shapeA) = true /\
  F32.leb (ratioRectShapeOverlap faceGood shapeA) F32.one = true.
Proof.
  apply (ratioRectShapeOverlap_counts faceGood shapeA).
  - reflexivity.
  - reflexivity.
  - reflexivity.
  - repeat constructor.
  - simpl; lia.
Defined.

(** C1, as stated, fails on a rectangle with an infinite corner: the
    landmark [(+inf, 1)] lies in the rectangle from [(0, 0)] to
    [(+inf, +inf)], but [+inf - +inf] is NaN and the landmark is not
    counted: the code returns 0 where the claim gives 1 / 1. *)
Lemma ratioRectShapeOverlap_infinite_corner :
  countInside quadrant farShape = 1 /\
  ratioRectShapeOverlap quadrant farShape = F32.zero /\
  F32.div (F32.of_Z (countInside quadrant farShape)) (F32.of_Z (Z.of_nat (length farShape)))
    = F32.one /\
  ratioRectShapeOverlap quadrant farShape <>
    F32.div (F32.of_Z (countInside quadrant farShape)) (F32.of_Z (Z.of_nat (length farShape))).
Proof. repeat split; try reflexivity. vm_compute. discriminate. Qed.

(** ** The training-data interface *)

Import TrainingData.

Section SampleFacts.

Context {Rng : Type}.
Variable next : Rng -> Z * Rng.
Variable toNormalizedFrame : nat -> Shape -> Shape.

Lemma drawOther_other (n i : nat) (rnd : Rng) :
  (2 <= n)%nat -> (i < n)%nat ->
  exists o rnd', drawOther next n i rnd = Some (o, rnd') /\ (o < n)%nat /\ o <> i.
Proof.
  intros Hn Hi. unfold drawOther.
  destruct (Nat.leb_spec n 1) as [|_]; [lia|].
  destruct (next rnd) as [v rnd'].
  pose proof (Z.mod_pos_bound v (Z.of_nat n - 1) ltac:(lia)) as Hb.
  set (t := Z.to_nat (v mod (Z.of_nat n - 1))).
  assert (Ht : (t < n - 1)%nat) by (unfold t; lia).
  destruct (Nat.ltb_spec t i); eexists _, rnd'; (split; [reflexivity|lia]).
Qed.

Lemma initializationsFor_spec (shapes : list Shape) (i k : nat) : forall rnd,
  (2 <= length shapes)%nat -> (i < length shapes)%nat ->
  exists l rnd', initializationsFor next toNormalizedFrame shapes i k rnd = Some (l, rnd') /\
    length l = k /\ Forall (fromOtherShape toNormalizedFrame shapes) l.
Proof.
  induction k as [|k IH]; intros rnd Hn Hi; simpl.
  - exists [], rnd. repeat split. constructor.
  - destruct (drawOther_other (length shapes) i rnd Hn Hi) as (o & rnd1 & -> & Ho & Hne).
    simpl. destruct (lookup_lt_is_Some_2 shapes o Ho) as [sh Hsh]. rewrite Hsh. simpl.
    destruct (IH rnd1 Hn Hi) as (l & rnd2 & -> & Hlen & Hall). simpl.
    eexists _, rnd2. split; [reflexivity|]. split; [simpl; lia|].
    constructor; [|exact Hall].
    unfold fromOtherShape. simpl. split; [lia|].
    exists o, sh. rewrite Nat2Z.id. repeat split; [lia|exact Hsh].
Qed.

Lemma samplesFrom_spec (shapes : list Shape) (k n : nat) : forall i rnd,
  (2 <= length shapes)%nat -> (i + n <= length shapes)%nat ->
  exists l rnd', samplesFrom next toNormalizedFrame shapes n i k rnd = Some (l, rnd') /\
    length l = (n * k)%nat /\ Forall (fromOtherShape toNormalizedFrame shapes) l.
Proof.
  induction n as [|n IH]; intros i rnd Hn Hi; simpl.
  - exists [], rnd. repeat split. constructor.
  - destruct (initializationsFor_spec shapes i k rnd Hn ltac:(lia)) as (a & rnd1 & -> & Ha & HPa).
    simpl. destruct (IH (S i) rnd1 Hn ltac:(lia)) as (b & rnd2 & -> & Hb & HPb). simpl.
    eexists _, rnd2. split; [reflexivity|]. split.
    + rewrite length_app. lia.
    + apply Forall_app; auto.
Qed.

(** C7, amended.  On [M] ground-truth shapes, [M] other than 1,
    [createTrainingSamplesKazemi] with [numInitializationsPerImage = k]
    produces [M * k] samples ([M * 0] for a negative [k]); the image index
    of each sample lies in [[0, M)] and its estimate is the image, in the
    frame of that index, of a ground-truth shape at another index. *)
Theorem createTrainingSamplesKazemi_count (shapes : list Shape) (rnd : Rng) (k : Z) :
  length shapes <> 1%nat ->
  exists samples rnd',
    createTrainingSamplesKazemi (kazemiSamples next toNormalizedFrame) shapes rnd (Some k)
      = Some (samples, rnd') /\
    Z.of_nat (length samples) = Z.of_nat (length shapes) * Z.max 0 k /\
    Forall (fromOtherShape toNormalizedFrame shapes) samples.
Proof.
  intros HM. unfold createTrainingSamplesKazemi, kazemiSamples. simpl default.
  destruct shapes as [|s0 shapes0] eqn:Hsh.
  - exists [], rnd. repeat split. constructor.
  - rewrite <- Hsh in *. assert (Hn : (2 <= length shapes)%nat).
    { subst shapes. simpl in *. lia. }
    destruct (samplesFrom_spec shapes (Z.to_nat k) (length shapes) 0%nat rnd Hn ltac:(lia))
      as (l & rnd' & Hl & Hlen & HP).
    exists l, rnd'. split; [exact Hl|]. split; [|exact HP]. rewrite Hlen. lia.
Qed.

(** C9.  The default of [numInitializationsPerImage] is 20 in both
    declarations: a call without the argument is the call with 20, whatever
    the bodies are. *)
Theorem numInitializationsPerImage_default {Samples : Type}
    (kazemi linearCombinations : list Shape -> Rng -> Z -> Samples)
    (shapes : list Shape) (rnd : Rng) :
  default_numInitializationsPerImage = 20 /\
  createTrainingSamplesKazemi kazemi shapes rnd None =
  createTrainingSamplesKazemi kazemi shapes rnd (Some 20) /\
  createTrainingSamplesKazemi kazemi shapes rnd None = kazemi shapes rnd 20 /\
  createTrainingSamplesThroughLinearCombinations linearCombinations shapes rnd None =
  createTrainingSamplesThroughLinearCombinations linearCombinations shapes rnd (Some 20) /\
  createTrainingSamplesThroughLinearCombinations linearCombinations shapes rnd None =
  linearCombinations shapes rnd 20.
Proof. repeat split. Qed.

Lemma roundedShare_default (n : nat) :
  Z.of_nat (roundedShare n default_validatePercent) =
  (2 * (Z.of_nat n * 13421773) + 134217728) / 268435456.
Proof.
  unfold roundedShare, default_validatePercent, F32.f0_1.
  change (0 <=? -27) with false. cbv iota.
  change (2 ^ (- -27)) with 134217728. change (2 ^ (1 - -27)) with 268435456.
  apply Z2Nat.id. apply Z.div_pos; lia.
Qed.

(** C8.  The default of [validatePercent] is [0.1f], the binary32 number
    nearest to 1/10: a call without the argument is the call with [0.1f].
    It then holds out [round(N * 0.1f)] of the [N] samples and keeps the
    others: a number [v] with [N - 5 < 10 v <= N + 5 + N / 2^26], which is
    [N / 10] rounded to nearest for [N < 2^26]. *)
Theorem validatePercent_default
    (shuffle : Rng -> list Sample -> list Sample * Rng)
    (train : list Sample) (rnd : Rng) :
  length (fst (shuffle rnd train)) = length train ->
  default_validatePercent = F32.div (F32.of_Z 1) (F32.of_Z 10) /\
  randomPartitionTrainingSamples (partitionSamples shuffle) train rnd None =
  randomPartitionTrainingSamples (partitionSamples shuffle) train rnd (Some F32.f0_1) /\
  let '(train', validate, _) :=
    randomPartitionTrainingSamples (partitionSamples shuffle) train rnd None in
  let N := Z.of_nat (length train) in
  let v := Z.of_nat (length validate) in
  (length train' + length validate = length train)%nat /\
  N - 5 < 10 * v <= N + 5 + N / 2 ^ 26 /\
  (N < 2 ^ 26 -> v = (N + 5) / 10).
Proof.
  intros Hperm. split; [reflexivity|]. split; [reflexivity|].
  unfold randomPartitionTrainingSamples, partitionSamples. simpl default.
  destruct (shuffle rnd train) as [shuffled rnd']. simpl in Hperm.
  pose proof (roundedShare_default (length train)) as Hshare.
  set (nv := roundedShare (length train) default_validatePercent) in *.
  set (N := Z.of_nat (length train)) in *.
  assert (HN : 0 <= N) by (unfold N; lia).
  pose proof (Z.div_mod (2 * (N * 13421773) + 134217728) 268435456 ltac:(lia)) as Hdm.
  pose proof (Z.mod_pos_bound (2 * (N * 13421773) + 134217728) 268435456 ltac:(lia)) as Hr.
  rewrite <- Hshare in Hdm.
  pose proof (Z.div_mod N (2 ^ 26) ltac:(lia)) as Hdq.
  pose proof (Z.mod_pos_bound N (2 ^ 26) ltac:(lia)) as Hrq.
  change (2 ^ 26) with 67108864 in *.
  assert (Hbounds : N - 5 < 10 * Z.of_nat nv <= N + 5 + N / 67108864) by lia.
  assert (Hle : (nv <= length train)%nat).
  { assert (N / 67108864 <= N) by (apply Z.div_le_upper_bound; lia).
    destruct (Z.eq_dec N 0) as [H0|H0]; [rewrite H0 in *; lia|]. lia. }
  cbv zeta. rewrite length_take, length_drop, Hperm.
  replace (Z.of_nat (nv `min` length train)) with (Z.of_nat nv) by lia.
  split; [lia|]. split; [exact Hbounds|].
  intros Hsmall. apply Z.div_unique with (N + 5 - 10 * Z.of_nat nv); lia.
Qed.

End SampleFacts.

Lemma createTrainingSamplesKazemi_count_witness :
  exists samples rnd',
    createTrainingSamplesKazemi (kazemiSamples nextLCG sameFrame) [shapeA; shapeB; shapeC]
      42 (Some 2) = Some (samples, rnd') /\
    Z.of_nat (length samples) = Z.of_nat (length [shapeA; shapeB; shapeC]) * Z.max 0 2 /\
    Forall (fromOtherShape sameFrame [shapeA; shapeB; shapeC]) samples.
Proof.
  apply (createTrainingSamplesKazemi_count nextLCG sameFrame [shapeA; shapeB; shapeC] 42 2).
  simpl. lia.
Defined.

(** C7, as stated, fails on a single shape: there is no other shape to draw
    from, the modelled body produces no sample, and no list of [1 * 1]
    samples can take its estimate from another shape. *)
Lemma createTrainingSamplesKazemi_single_shape :
  createTrainingSamplesKazemi (kazemiSamples nextLCG sameFrame) [shapeA] 42 (Some 1) = None /\
  ~ exists samples : list Sample,
      Z.of_nat (length samples) = Z.of_nat (length [shapeA]) * 1 /\
      Forall (fromOtherShape sameFrame [shapeA]) samples.
Proof.
  split; [reflexivity|]. intros (samples & Hlen & Hall).
  destruct samples as [|smp rest]; [simpl in Hlen; lia|].
  apply Forall_cons in Hall as [(Hidx & o & sh & Hne & Hsh & _) _].
  simpl in Hidx. destruct o as [|o]; [lia|]. discriminate Hsh.
Qed.

Lemma validatePercent_default_witness :
  default_validatePercent = F32.div (F32.of_Z 1) (F32.of_Z 10) /\
  randomPartitionTrainingSamples (partitionSamples reverseShuffle) samples25 7 None =
  randomPartitionTrainingSamples (partitionSamples reverseShuffle) samples25 7 (Some F32.f0_1) /\
  let '(train', validate, _) :=
    randomPartitionTrainingSamples (partitionSamples reverseShuffle) samples25 7 None in
  let N := Z.of_nat (length samples25) in
  let v := Z.of_nat (length validate) in
  (length train' + length validate = length samples25)%nat /\
  N - 5 < 10 * v <= N + 5 + N / 2 ^ 26 /\
  (N < 2 ^ 26 -> v = (N + 5) / 10).
Proof.
  apply (validatePercent_default reverseShuffle samples25 7).
  reflexivity.
Defined.

(** * Further properties *)

(** ** More on binary32 quotients *)

Lemma strictly_signed_ltb_zero (x : float) :
  strictly_signed false x -> F32.ltb F32.zero x = true.
Proof. destruct x as [| | |s m e]; simpl; try tauto; intros ->; reflexivity. Qed.

Lemma div_normal_signed (ma mb : positive) (ea eb : Z) :
  normal24 ma ea -> normal24 mb eb ->
  strictly_signed false (F32.div (S754_finite false ma ea) (S754_finite false mb eb)).
Proof.
  intros Ha Hb. unfold F32.div, SFdiv.
  rewrite (SFdiv_core_normal ma mb ea eb Ha Hb). cbn [xorb].
  destruct Ha as [Hma Hea], Hb as [Hmb Heb].
  assert (Hq : 2 ^ 23 <= Z.pos ma * 2 ^ 24 / Z.pos mb).
  { apply Z.div_le_lower_bound; lia. }
  apply binary_round_aux_signed; lia.
Qed.

Lemma div_normal_self (m : positive) (e : Z) :
  normal24 m e -> F32.div (S754_finite false m e) (S754_finite false m e) = F32.one.
Proof.
  intros H. unfold F32.div, SFdiv. rewrite (SFdiv_core_normal m m e e H H). cbn [xorb].
  destruct H as [Hm He].
  rewrite (Z.mul_comm (Z.pos m)), Z.div_mul, Z_mod_mult, new_location_zero by lia.
  replace (e - e - 24) with (-24) by lia. reflexivity.
Qed.

(** The quotient of the converted counts is positive exactly for a positive
    count, and it is [1.f] for equal counts. *)
Lemma ratio_positive (c n : Z) :
  0 <= c <= n -> 0 < n < 2 ^ 31 ->
  F32.ltb F32.zero (F32.div (F32.of_Z c) (F32.of_Z n)) = (0 <? c).
Proof.
  intros Hc Hn. destruct (Z.eq_dec c 0) as [->|Hc0].
  - destruct (of_Z_le n n ltac:(lia) ltac:(lia)) as (m & e & _ & _ & -> & _). reflexivity.
  - destruct (of_Z_le c n ltac:(lia) ltac:(lia)) as (ma & ea & mb & eb & -> & -> & Ha & Hb & _).
    rewrite (strictly_signed_ltb_zero _ (div_normal_signed ma mb ea eb Ha Hb)).
    symmetry. apply Z.ltb_lt. lia.
Qed.

Lemma ratio_full (n : Z) :
  0 < n < 2 ^ 31 -> F32.div (F32.of_Z n) (F32.of_Z n) = F32.one.
Proof.
  intros Hn. destruct (of_Z_le n n ltac:(lia) ltac:(lia)) as (m & e & _ & _ & -> & _ & H & _).
  apply div_normal_self, H.
Qed.

(** *** Division by one *)

Lemma binary_round_aux_canonical (s : bool) (m : positive) (e : Z) :
  bounded F32.prec F32.emax m e = true ->
  binary_round_aux F32.prec F32.emax s (Z.pos m) e loc_Exact = S754_finite s m e.
Proof.
  intros Hb. pose proof (bounded_spec m e Hb) as (He & Hd & _).
  pose proof (digits2_pos_bounds m) as [_ Hhi].
  assert (Hm : 0 <= Z.pos m < 2 ^ 24).
  { assert (2 ^ Z.pos (digits2_pos m) <= 2 ^ 24) by (apply Z.pow_le_mono_r; lia). lia. }
  unfold binary_round_aux. rewrite shr_fexp_stays by lia.
  cbn [shr_record_of_loc shr_m loc_of_shr_record round_nearest_even].
  rewrite shr_fexp_stays by lia. cbn [shr_record_of_loc shr_m].
  replace (e <=? F32.emax - F32.prec) with true; [reflexivity|].
  symmetry. apply Z.leb_le. change (F32.emax - F32.prec) with 104. lia.
Qed.

Lemma binary_round_aux_doubled (s : bool) (m : positive) (e : Z) :
  bounded F32.prec F32.emax m e = true -> -149 < e ->
  binary_round_aux F32.prec F32.emax s (Z.pos m~0) (e - 1) loc_Exact = S754_finite s m e.
Proof.
  intros Hb He. pose proof (bounded_spec m e Hb) as (Hr & _ & Hd). specialize (Hd He).
  pose proof (digits2_pos_bounds m) as [_ Hhi]. rewrite Hd in Hhi.
  unfold binary_round_aux.
  assert (Hsh : shr_fexp F32.prec F32.emax (Z.pos m~0) (e - 1) loc_Exact =
                (Build_shr_record (Z.pos m) false false, e)).
  { unfold shr_fexp. rewrite fexp32. cbn [Zdigits2 digits2_pos].
    rewrite Pos2Z.inj_succ, Hd.
    replace (Z.max (Z.succ 24 + (e - 1) - 24) (-149) - (e - 1)) with 1 by lia.
    cbn. f_equal. lia. }
  rewrite Hsh. cbn [shr_m loc_of_shr_record round_nearest_even].
  rewrite shr_fexp_stays by lia. cbn [shr_record_of_loc shr_m].
  replace (e <=? F32.emax - F32.prec) with true; [reflexivity|].
  symmetry. apply Z.leb_le. change (F32.emax - F32.prec) with 104. lia.
Qed.

(** [x / 1.f] is [x]. *)
Lemma div_one (x : float) : F32.valid x = true -> F32.div x F32.one = x.
Proof.
  intros Hx. destruct x as [s|s| |s m e]; try (destruct s; reflexivity); try reflexivity.
  pose proof (bounded_spec m e Hx) as (Hr & Hd & Hn).
  unfold F32.div, F32.one, SFdiv, SFdiv_core_binary. rewrite fexp32.
  cbn [Zdigits2]. change (Z.pos (digits2_pos 8388608)) with 24.
  rewrite xorb_false_r.
  destruct (Z.eq_dec e (-149)) as [->|Hne].
  - replace (Z.min (Z.max (Z.pos (digits2_pos m) + -149 - (24 + -23) - 24) (-149)) (-149 - -23))
      with (-149) by lia.
    change (-149 - -23 - -149) with 23. cbv iota.
    rewrite Z.shiftl_mul_pow2, div_eucl_div_mod, Z.div_mul, Z_mod_mult by lia.
    rewrite new_location_zero. apply binary_round_aux_canonical, Hx.
  - specialize (Hn ltac:(lia)). rewrite Hn.
    replace (Z.min (Z.max (24 + e - (24 + -23) - 24) (-149)) (e - -23)) with (e - 1) by lia.
    replace (e - -23 - (e - 1)) with 24 by lia. cbv iota.
    rewrite Z.shiftl_mul_pow2, div_eucl_div_mod by lia.
    change (2 ^ 24) with (2 * 8388608). rewrite Z.mul_assoc.
    rewrite Z.div_mul, Z_mod_mult by lia. rewrite new_location_zero.
    rewrite (Z.mul_comm (Z.pos m) 2). change (2 * Z.pos m) with (Z.pos m~0).
    apply binary_round_aux_doubled; [exact Hx|lia].
Qed.

Lemma rect_div_one (r : Rect) : validRect r = true -> rect_div r F32.one = r.
Proof.
  unfold validRect, validVector. rewrite !andb_true_iff.
  intros [[[[H0 H0'] [H1 H1']] [H2 H2']] [H3 H3']].
  destruct r as [[x0 y0] [x1 y1] [x2 y2] [x3 y3]]. simpl in *.
  unfold rect_div, rect_map. simpl. now rewrite !div_one.
Qed.

(** *** Sums with the zero entries of the transform *)

Lemma add_zero_term_r (z y t : float) :
  finiteFloat y = true -> is_zero t = false ->
  F32.add (F32.add z (F32.mul F32.zero y)) t = F32.add z t.
Proof.
  intros Hy Ht.
  destruct y as [sy| | |sy my ey]; try discriminate Hy;
    destruct z as [[]|[]| |sz mz ez]; try reflexivity;
    destruct t as [st|[]| |st mt et]; try discriminate Ht; try reflexivity;
    destruct sy; reflexivity.
Qed.

Lemma add_zero_term_l (z x t : float) :
  finiteFloat x = true -> is_zero t = false ->
  F32.add (F32.add (F32.mul F32.zero x) z) t = F32.add z t.
Proof.
  intros Hx Ht.
  destruct x as [sx| | |sx mx ex]; try discriminate Hx;
    destruct z as [[]|[]| |sz mz ez]; try reflexivity;
    destruct t as [st|[]| |st mt et]; try discriminate Ht; try reflexivity;
    destruct sx; reflexivity.
Qed.

Lemma translation_not_zero (k : float) (km : positive) (ke : Z) (n : Z) :
  k = S754_finite true km ke -> -126 <= ke ->
  0 < n < 2 ^ 31 -> is_zero (F32.mul k (F32.of_Z n)) = false.
Proof.
  intros -> Hke Hn.
  destruct (of_Z_le n n ltac:(lia) ltac:(lia)) as (m & e & _ & _ & -> & _ & [Hm He] & _).
  unfold F32.mul, SFmul.
  pose proof (binary_round_aux_signed (xorb true false) (Z.pos (km * m)) (ke + e) loc_Exact
                ltac:(lia) ltac:(lia)) as Hs.
  destruct (binary_round_aux _ _ _ _ _ _); simpl in *; try contradiction; reflexivity.
Qed.

(** *** The quotient of two normal numbers, ready to round *)

Lemma new_location_spec (n r : Z) :
  0 <= r < n ->
  new_location n r = if r =? 0 then loc_Exact else loc_Inexact (2 * r ?= n).
Proof.
  intros Hr. unfold new_location.
  destruct (Z.even n) eqn:Hev.
  - unfold new_location_even. reflexivity.
  - unfold new_location_odd. destruct (r =? 0); [reflexivity|]. f_equal.
    assert (Hodd : Z.odd n = true) by (rewrite <- Z.negb_even, Hev; reflexivity).
    apply Z.odd_spec in Hodd as [k Hk].
    destruct (Z.compare_spec (2 * r + 1) n), (Z.compare_spec (2 * r) n); try reflexivity; lia.
Qed.

Lemma loc_of_shr_record_of_loc (m : Z) (l : location) :
  loc_of_shr_record (shr_record_of_loc m l) = l.
Proof. destruct l as [|[]]; reflexivity. Qed.


Lemma shr_fexp_one (q e : Z) (l : location) :
  2 ^ 24 <= q < 2 ^ 25 -> -149 <= e ->
  shr_fexp F32.prec F32.emax q e l =
  (Build_shr_record (q / 2) (Z.odd q)
     (match l with loc_Exact => false | _ => true end), e + 1).
Proof.
  intros Hq He. unfold shr_fexp. rewrite fexp32.
  rewrite (Zdigits2_unique q 25) by (simpl; lia).
  replace (Z.max (25 + e - 24) (-149) - e) with 1 by lia.
  unfold shr. cbn [SpecFloat.iter_pos].
  rewrite shr_1_spec by (rewrite shr_record_of_loc_m; lia).
  rewrite shr_record_of_loc_m. f_equal. f_equal. destruct l as [|[]]; reflexivity.
Qed.

Lemma div_normal_rounded (ma mb : positive) (ea eb : Z) :
  normal24 ma ea -> normal24 mb eb ->
  let q := Z.pos ma * 2 ^ 24 / Z.pos mb in
  let l := new_location (Z.pos mb) ((Z.pos ma * 2 ^ 24) mod Z.pos mb) in
  F32.div (S754_finite false ma ea) (S754_finite false mb eb) =
  if q <? 2 ^ 24
  then normalize24 (round_nearest_even q l) (ea - eb - 24)
  else normalize24 (round_nearest_even (q / 2) (shifted_location q l)) (ea - eb - 23).
Proof.
  intros Ha Hb q l. unfold F32.div, SFdiv.
  rewrite (SFdiv_core_normal ma mb ea eb Ha Hb). cbn [xorb]. fold q l.
  destruct Ha as [Hma Hea], Hb as [Hmb Heb].
  assert (Hq : 2 ^ 23 <= q < 2 ^ 25).
  { unfold q. split; [apply Z.div_le_lower_bound; lia|apply Z.div_lt_upper_bound; lia]. }
  pose proof (binary_round_aux_normalize q (ea - eb - 24) l) as Hbr. cbv zeta in Hbr.
  destruct (Z.ltb_spec q (2 ^ 24)) as [Hlt|Hge].
  - rewrite shr_fexp_stays in Hbr by lia. cbn [fst snd] in Hbr.
    rewrite shr_record_of_loc_m, loc_of_shr_record_of_loc in Hbr.
    pose proof (round_nearest_even_bounds q l). apply Hbr; lia.
  - rewrite shr_fexp_one in Hbr by lia. cbn [fst snd shr_m] in Hbr.
    replace (ea - eb - 24 + 1) with (ea - eb - 23) in Hbr by lia.
    assert (Hloc : loc_of_shr_record
                     (Build_shr_record (q / 2) (Z.odd q)
                        (match l with loc_Exact => false | _ => true end)) =
                   shifted_location q l).
    { unfold shifted_location. destruct (Z.odd q), l as [|[]]; reflexivity. }
    rewrite Hloc in Hbr.
    pose proof (round_nearest_even_bounds (q / 2) (shifted_location q l)).
    assert (q / 2 < 2 ^ 24) by (apply Z.div_lt_upper_bound; lia).
    assert (0 <= q / 2) by (apply Z.div_pos; lia).
    apply Hbr; lia.
Qed.

Lemma normalize24_ltb_f0_3 (M e : Z) :
  2 ^ 23 <= M <= 2 ^ 24 ->
  F32.ltb (normalize24 M e) F32.f0_3 = (e <=? -26) || ((e =? -25) && (M <? 10066330)).
Proof.
  intros HM. unfold normalize24.
  destruct (Z.eqb_spec M (2 ^ 24)) as [->|Hne].
  - unfold F32.ltb, SFltb, F32.f0_3, SFcompare.
    destruct (Z.compare_spec (e + 1) (-25)), (Z.leb_spec e (-26)), (Z.eqb_spec e (-25));
      try reflexivity; lia.
  - destruct M as [|p|p]; try lia.
    unfold F32.ltb, SFltb, F32.f0_3, SFcompare.
    change (Pos.compare_cont Eq p 10066330) with (Z.pos p ?= 10066330).
    destruct (Z.compare_spec e (-25)), (Z.leb_spec e (-26)), (Z.eqb_spec e (-25));
      try reflexivity; try lia.
Qed.

Lemma ltb_scale (a b P : Z) : 0 < P -> (a * P <? b * P) = (a <? b).
Proof.
  intros HP. destruct (Z.ltb_spec (a * P) (b * P)), (Z.ltb_spec a b); try reflexivity; nia.
Qed.

(** The quotient of [ma / mb] at one binade below: [q] is the quotient of
    [ma * 2^24] by [mb], rounded with the location of the remainder. *)
Lemma threshold_same_digits (ma mb q r : Z) :
  2 ^ 23 <= ma < 2 ^ 24 -> 2 ^ 23 <= mb < 2 ^ 24 ->
  ma * 2 ^ 24 = mb * q + r -> 0 <= r < mb ->
  (round_nearest_even q (if r =? 0 then loc_Exact else loc_Inexact (2 * r ?= mb)) <? 10066330)
  = (10 * ma <? 6 * mb).
Proof.
  intros Hma Hmb Hdm Hr. change (2 ^ 24) with 16777216 in *. change (2 ^ 23) with 8388608 in *.
  assert (Hq : q <= 10066328 \/ q = 10066329 \/ 10066330 <= q) by lia.
  set (l := if r =? 0 then loc_Exact else loc_Inexact (2 * r ?= mb)).
  pose proof (round_nearest_even_bounds q l) as HM.
  destruct Hq as [Hq|[Hq|Hq]].
  - assert (mb * q <= mb * 10066328) by (apply Z.mul_le_mono_nonneg_l; lia).
    destruct (Z.ltb_spec (round_nearest_even q l) 10066330), (Z.ltb_spec (10 * ma) (6 * mb));
      try reflexivity; lia.
  - subst l. rewrite Hq in *. clear HM.
    destruct (Z.eqb_spec r 0) as [Hr0|Hr0]; [|destruct (Z.compare_spec (2 * r) mb)];
      cbn [round_nearest_even]; change (Z.even 10066329) with false; cbv iota;
      change (10066329 + 1) with 10066330;
      match goal with |- (?a <? ?b) = _ =>
        destruct (Z.ltb_spec a b), (Z.ltb_spec (10 * ma) (6 * mb)) end;
      try reflexivity; lia.
  - assert (mb * 10066330 <= mb * q) by (apply Z.mul_le_mono_nonneg_l; lia).
    destruct (Z.ltb_spec (round_nearest_even q l) 10066330), (Z.ltb_spec (10 * ma) (6 * mb));
      try reflexivity; lia.
Qed.

Lemma threshold_more_digits (ma mb q r : Z) :
  2 ^ 23 <= ma < 2 ^ 24 -> 2 ^ 23 <= mb < 2 ^ 24 ->
  ma * 2 ^ 24 = mb * q + r -> 0 <= r < mb -> 0 <= q ->
  (round_nearest_even (q / 2)
     (shifted_location q (if r =? 0 then loc_Exact else loc_Inexact (2 * r ?= mb)))
   <? 10066330)
  = (10 * ma <? 12 * mb).
Proof.
  intros Hma Hmb Hdm Hr Hq0. change (2 ^ 24) with 16777216 in *. change (2 ^ 23) with 8388608 in *.
  pose proof (Z.div_mod q 2 ltac:(lia)) as Hq2.
  pose proof (Z.mod_pos_bound q 2 ltac:(lia)) as Hb.
  unfold shifted_location. rewrite Zodd_mod.
  set (m1 := q / 2) in *. set (b := q mod 2) in *.
  assert (Hq : m1 <= 10066328 \/ m1 = 10066329 \/ 10066330 <= m1) by lia.
  assert (Hcases : b = 0 \/ b = 1) by lia.
  assert (Hprod : mb * q = 2 * (mb * m1) + mb * b) by (rewrite Hq2; ring).
  destruct Hq as [Hq|[Hq|Hq]].
  - assert (mb * m1 <= mb * 10066328) by (apply Z.mul_le_mono_nonneg_l; lia).
    match goal with |- (round_nearest_even m1 ?l <? _) = _ =>
      pose proof (round_nearest_even_bounds m1 l);
      destruct (Z.ltb_spec (round_nearest_even m1 l) 10066330) end;
      destruct (Z.ltb_spec (10 * ma) (12 * mb)); try reflexivity; nia.
  - rewrite Hq in *.
    destruct Hcases as [Hb0|Hb1].
    + rewrite Hb0 in *. change (0 =? 1) with false. cbv iota.
      destruct (Z.eqb_spec r 0) as [->|Hr0]; [|destruct (2 * r ?= mb)];
        cbn [round_nearest_even];
        destruct (Z.ltb_spec 10066329 10066330), (Z.ltb_spec (10 * ma) (12 * mb));
        try reflexivity; lia.
    + rewrite Hb1 in *. change (1 =? 1) with true. cbv iota.
      destruct (Z.eqb_spec r 0) as [->|Hr0]; [|destruct (2 * r ?= mb)];
        cbn [round_nearest_even]; change (Z.even 10066329) with false; cbv iota;
        change (10066329 + 1) with 10066330;
        destruct (Z.ltb_spec 10066330 10066330), (Z.ltb_spec (10 * ma) (12 * mb));
        try reflexivity; lia.
  - assert (mb * 10066330 <= mb * m1) by (apply Z.mul_le_mono_nonneg_l; lia).
    match goal with |- (round_nearest_even m1 ?l <? _) = _ =>
      pose proof (round_nearest_even_bounds m1 l);
      destruct (Z.ltb_spec (round_nearest_even m1 l) 10066330) end;
      destruct (Z.ltb_spec (10 * ma) (12 * mb)); try reflexivity; nia.
Qed.

(** [a / b < 0.3f] for normal [a <= b]: exactly when [10 a < 3 b]. *)
Lemma div_lt_f0_3 (ma mb : positive) (ea eb : Z) :
  normal24 ma ea -> normal24 mb eb ->
  ea < eb \/ (ea = eb /\ Z.pos ma <= Z.pos mb) ->
  F32.ltb (F32.div (S754_finite false ma ea) (S754_finite false mb eb)) F32.f0_3 =
  (10 * (Z.pos ma * 2 ^ (ea + 23)) <? 3 * (Z.pos mb * 2 ^ (eb + 23))).
Proof.
  intros Ha Hb Hle. rewrite (div_normal_rounded ma mb ea eb Ha Hb). cbv zeta.
  destruct Ha as [Hma Hea], Hb as [Hmb Heb].
  pose proof (Z.div_mod (Z.pos ma * 2 ^ 24) (Z.pos mb) ltac:(lia)) as Hdm.
  pose proof (Z.mod_pos_bound (Z.pos ma * 2 ^ 24) (Z.pos mb) ltac:(lia)) as Hr.
  rewrite (new_location_spec _ _ Hr).
  set (q := Z.pos ma * 2 ^ 24 / Z.pos mb) in *.
  set (r := (Z.pos ma * 2 ^ 24) mod Z.pos mb) in *.
  set (l := if r =? 0 then loc_Exact else loc_Inexact (2 * r ?= Z.pos mb)).
  assert (Hq : 2 ^ 23 <= q < 2 ^ 25).
  { unfold q. split; [apply Z.div_le_lower_bound; lia|apply Z.div_lt_upper_bound; lia]. }
  (* the right-hand side, without the common power of two *)
  set (d := eb - ea). assert (Hd : 0 <= d) by (unfold d; lia).
  assert (HP : 0 < 2 ^ (ea + 23)) by (apply Z.pow_pos_nonneg; lia).
  replace (eb + 23) with (ea + 23 + d) by (unfold d; lia).
  rewrite (Z.pow_add_r 2 (ea + 23) d) by lia.
  replace (10 * (Z.pos ma * 2 ^ (ea + 23))) with (10 * Z.pos ma * 2 ^ (ea + 23)) by ring.
  replace (3 * (Z.pos mb * (2 ^ (ea + 23) * 2 ^ d)))
    with (3 * Z.pos mb * 2 ^ d * 2 ^ (ea + 23)) by ring.
  rewrite ltb_scale by exact HP.
  replace (ea - eb - 24) with (- d - 24) by (unfold d; lia).
  replace (ea - eb - 23) with (- d - 23) by (unfold d; lia).
  assert (Hdcase : d = 0 \/ d = 1 \/ d = 2 \/ 3 <= d) by lia.
  assert (Hpow : 3 <= d -> 8 <= 2 ^ d).
  { intros H3. change 8 with (2 ^ 3). apply Z.pow_le_mono_r; lia. }
  change (2 ^ 24) with 16777216 in *. change (2 ^ 23) with 8388608 in *.
  change (2 ^ 25) with 33554432 in *.
  destruct (Z.ltb_spec q 16777216) as [Hlt|Hge].
  - (* ma < mb *)
    assert (Hab : Z.pos ma < Z.pos mb).
    { destruct (Z.lt_ge_cases (Z.pos ma) (Z.pos mb)) as [|Hge]; [assumption|exfalso].
      assert (Z.pos mb * 16777216 <= Z.pos mb * q); [|nia]. nia. }
    pose proof (round_nearest_even_bounds q l) as HM.
    rewrite normalize24_ltb_f0_3 by (change (2 ^ 24) with 16777216; change (2 ^ 23) with 8388608; lia).
    destruct Hdcase as [->|[->|[->|H3]]].
    + change (2 ^ 0) with 1. simpl. symmetry. apply Z.ltb_ge. lia.
    + change (2 ^ 1) with 2. simpl.
      replace (3 * Z.pos mb * 2) with (6 * Z.pos mb) by ring.
      apply threshold_same_digits; lia.
    + change (2 ^ 2) with 4. simpl. symmetry. apply Z.ltb_lt. lia.
    + specialize (Hpow H3).
      replace (- d - 24 <=? -26) with true by (symmetry; apply Z.leb_le; lia).
      simpl. symmetry. apply Z.ltb_lt. nia.
  - (* mb <= ma *)
    assert (Hab : Z.pos mb <= Z.pos ma).
    { destruct (Z.le_gt_cases (Z.pos mb) (Z.pos ma)) as [|Hgt]; [assumption|exfalso].
      assert (Z.pos mb * 16777216 <= Z.pos mb * q) by (apply Z.mul_le_mono_nonneg_l; lia).
      nia. }
    pose proof (round_nearest_even_bounds (q / 2) (shifted_location q l)) as HM.
    assert (Hq2 : 8388608 <= q / 2 < 16777216).
    { split; [apply Z.div_le_lower_bound; lia|apply Z.div_lt_upper_bound; lia]. }
    rewrite normalize24_ltb_f0_3 by (change (2 ^ 24) with 16777216; change (2 ^ 23) with 8388608; lia).
    destruct Hdcase as [->|[->|[->|H3]]].
    + change (2 ^ 0) with 1. simpl. symmetry. apply Z.ltb_ge. lia.
    + change (2 ^ 1) with 2. simpl. symmetry. apply Z.ltb_ge. lia.
    + change (2 ^ 2) with 4. simpl.
      replace (3 * Z.pos mb * 4) with (12 * Z.pos mb) by ring.
      apply threshold_more_digits; lia.
    + specialize (Hpow H3).
      replace (- d - 23 <=? -26) with true by (symmetry; apply Z.leb_le; lia).
      simpl. symmetry. apply Z.ltb_lt. nia.
Qed.

Lemma of_Z_exact (n : Z) :
  0 < n < 2 ^ 24 ->
  exists m e, F32.of_Z n = S754_finite false m e /\ normal24 m e /\
    Z.pos m * 2 ^ (e + 23) = n * 2 ^ 23.
Proof.
  intros Hn.
  assert (Hd : Zdigits2 n <= 24) by (apply Zdigits2_le; lia).
  destruct (of_Z_spec n ltac:(lia)) as (M & HM & Hk & Hex & _ & Hof).
  set (k := Zdigits2 n - 24) in *.
  destruct (Hex ltac:(unfold k; lia)) as [HMn HM24].
  destruct (normalize24_normal M k HM Hk) as (m & e & Hf & Hnorm & [(? & _)|(_ & Hm & He)]); [lia|].
  exists m, e. rewrite Hof, Hf. repeat split; try apply Hnorm.
  rewrite Hm, He, HMn, <- Z.mul_assoc, <- Z.pow_add_r by (unfold k; lia).
  f_equal. f_equal. lia.
Qed.

(** The quotient of the converted counts is below [0.3f] exactly when the
    count is below three tenths of the total. *)
Lemma ratio_lt_f0_3 (c n : Z) :
  0 <= c <= n -> 0 < n < 2 ^ 24 ->
  F32.ltb (F32.div (F32.of_Z c) (F32.of_Z n)) F32.f0_3 = (10 * c <? 3 * n).
Proof.
  intros Hc Hn. destruct (Z.eq_dec c 0) as [->|Hc0].
  - destruct (of_Z_exact n Hn) as (m & e & -> & _). symmetry. apply Z.ltb_lt. lia.
  - destruct (of_Z_exact c ltac:(lia)) as (ma & ea & Ha & Hna & Hva).
    destruct (of_Z_exact n Hn) as (mb & eb & Hb & Hnb & Hvb).
    destruct (of_Z_le c n ltac:(lia) ltac:(lia)) as (ma' & ea' & mb' & eb' & Ha' & Hb' & _ & _ & Hle).
    rewrite Ha in Ha'. rewrite Hb in Hb'. injection Ha' as <- <-. injection Hb' as <- <-.
    rewrite Ha, Hb, (div_lt_f0_3 ma mb ea eb Hna Hnb Hle), Hva, Hvb.
    replace (10 * (c * 2 ^ 23)) with (10 * c * 2 ^ 23) by ring.
    replace (3 * (n * 2 ^ 23)) with (3 * n * 2 ^ 23) by ring.
    apply ltb_scale. reflexivity.
Qed.

(** ** More on the overlap ratio *)

(** The ratio as the quotient of the converted counts. *)
Lemma ratio_as_quotient (r : Rect) (s : Shape) :
  cornersNotInf r = true ->
  validVector (rcol0 r) = true -> validVector (rcol3 r) = true ->
  Forall (fun p => validVector p = true) s ->
  0 < Z.of_nat (length s) < 2 ^ 31 ->
  ratioRectShapeOverlap r s =
    F32.div (F32.of_Z (countInside r s)) (F32.of_Z (Z.of_nat (length s))) /\
  0 <= countInside r s <= Z.of_nat (length s).
Proof.
  intros Hinf V0 V3 Hs Hlen. split.
  - unfold ratioRectShapeOverlap. cbv zeta.
    rewrite (overlap_fold_counts r s 0) by (try assumption; lia). reflexivity.
  - unfold countInside. pose proof (filter_length_le (insideRect r) s). lia.
Qed.

Lemma countInside_all (r : Rect) (s : Shape) :
  (forall p, p ∈ s -> insideRect r p = true) -> countInside r s = Z.of_nat (length s).
Proof.
  intros Hall. unfold countInside. f_equal. f_equal.
  induction s as [|p s IH]; [reflexivity|]. simpl.
  rewrite (Hall p) by (left). f_equal. apply IH. intros q Hq. apply Hall. now right.
Qed.

(** X1.  For a rectangle without infinite corner coordinates and a shape
    of 1 to [2^31 - 1] landmarks, the overlap ratio is above zero exactly
    when some landmark lies in the rectangle; it is [+0] when none does. *)
Theorem ratio_positive_iff_landmark_inside (r : Rect) (s : Shape) :
  cornersNotInf r = true ->
  validVector (rcol0 r) = true -> validVector (rcol3 r) = true ->
  Forall (fun p => validVector p = true) s ->
  0 < Z.of_nat (length s) < 2 ^ 31 ->
  (F32.ltb F32.zero (ratioRectShapeOverlap r s) = true <->
     exists p, p ∈ s /\ insideRect r p = true) /\
  ((forall p, p ∈ s -> insideRect r p = false) -> ratioRectShapeOverlap r s = F32.zero).
Proof.
  intros Hinf V0 V3 Hs Hlen.
  destruct (ratio_as_quotient r s Hinf V0 V3 Hs Hlen) as (Heq & Hc).
  rewrite Heq, ratio_positive by lia.
  assert (Hcount : 0 < countInside r s <-> exists p, p ∈ s /\ insideRect r p = true).
  { unfold countInside. split.
    - intros Hpos. destruct (List.filter (insideRect r) s) as [|p l] eqn:Hf; [simpl in Hpos; lia|].
      assert (Hin : In p (List.filter (insideRect r) s)) by (rewrite Hf; now left).
      apply filter_In in Hin as [Hin Hp]. exists p. split; [now apply list_elem_of_In|exact Hp].
    - intros (p & Hin & Hp). apply list_elem_of_In in Hin.
      assert (Hin' : In p (List.filter (insideRect r) s)) by (apply filter_In; auto).
      destruct (List.filter (insideRect r) s); [destruct Hin'|simpl; lia]. }
  split.
  - rewrite Z.ltb_lt. exact Hcount.
  - intros Hnone. assert (Hz : countInside r s = 0).
    { destruct (Z.eq_dec (countInside r s) 0) as [|Hne]; [assumption|exfalso].
      destruct (proj1 Hcount ltac:(lia)) as (p & Hin & Hp). rewrite (Hnone p Hin) in Hp. discriminate. }
    rewrite Hz. destruct (of_Z_le (Z.of_nat (length s)) (Z.of_nat (length s)) ltac:(lia) ltac:(lia))
      as (m & e & _ & _ & -> & _). reflexivity.
Qed.

(** X2.  Under the same conditions the overlap ratio is exactly [1.f]
    when every landmark lies in the rectangle. *)
Theorem ratio_one_when_all_inside (r : Rect) (s : Shape) :
  cornersNotInf r = true ->
  validVector (rcol0 r) = true -> validVector (rcol3 r) = true ->
  Forall (fun p => validVector p = true) s ->
  0 < Z.of_nat (length s) < 2 ^ 31 ->
  (forall p, p ∈ s -> insideRect r p = true) ->
  ratioRectShapeOverlap r s = F32.one.
Proof.
  intros Hinf V0 V3 Hs Hlen Hall.
  destruct (ratio_as_quotient r s Hinf V0 V3 Hs Hlen) as (Heq & _).
  rewrite Heq, (countInside_all r s Hall). apply ratio_full, Hlen.
Qed.

(** X3.  For a shape of fewer than [2^24] landmarks the test
    [ratio < 0.3f] of [main] is exact: it holds precisely when the number
    of covered landmarks is below three tenths of the number of landmarks,
    [10 * count < 3 * total]. *)
Theorem ratio_below_threshold_iff (r : Rect) (s : Shape) :
  cornersNotInf r = true ->
  validVector (rcol0 r) = true -> validVector (rcol3 r) = true ->
  Forall (fun p => validVector p = true) s ->
  0 < Z.of_nat (length s) < 2 ^ 24 ->
  F32.ltb (ratioRectShapeOverlap r s) F32.f0_3 =
  (10 * countInside r s <? 3 * Z.of_nat (length s)).
Proof.
  intros Hinf V0 V3 Hs Hlen.
  destruct (ratio_as_quotient r s Hinf V0 V3 Hs ltac:(lia)) as (Heq & Hc).
  rewrite Heq. apply ratio_lt_f0_3; lia.
Qed.

Lemma overlap_step_comm (minC maxC : Vector2f) (n : Z) (p q : Vector2f) :
  overlap_step minC maxC (overlap_step minC maxC n p) q =
  overlap_step minC maxC (overlap_step minC maxC n q) p.
Proof.
  unfold overlap_step.
  destruct (all_ge0 (vsub p minC) && all_le0 (vsub p maxC)),
           (all_ge0 (vsub q minC) && all_le0 (vsub q maxC)); reflexivity.
Qed.

Lemma overlap_fold_permutation (minC maxC : Vector2f) (s s' : Shape) :
  s ≡ₚ s' -> forall n,
  foldl (overlap_step minC maxC) n s = foldl (overlap_step minC maxC) n s'.
Proof.
  induction 1 as [|p s s' _ IH|p q s|s s' s'' _ IH1 _ IH2]; intros n; simpl.
  - reflexivity.
  - apply IH.
  - now rewrite overlap_step_comm.
  - now rewrite IH1.
Qed.

(** X4.  The overlap ratio does not depend on the order of the landmarks
    of the shape, also where the counter wraps. *)
Theorem ratio_permutation_invariant (r : Rect) (s s' : Shape) :
  s ≡ₚ s' -> ratioRectShapeOverlap r s = ratioRectShapeOverlap r s'.
Proof.
  intros H. unfold ratioRectShapeOverlap.
  now rewrite (overlap_fold_permutation _ _ s s' H), (Permutation_length H).
Qed.

Lemma ratio_permutation_invariant_witness :
  ratioRectShapeOverlap faceGood shapeA = ratioRectShapeOverlap faceGood (reverse shapeA).
Proof.
  apply ratio_permutation_invariant. symmetry. apply reverse_Permutation.
Defined.

(** ** More on the loop over the images *)

Section LoopFacts.

Context {Image FaceDetector : Type}.
Variable image_cols image_rows : Image -> Z.
Variable detectFaces : FaceDetector -> Image -> list Rect.
Variable shapeBounds : Shape -> Rect.

Local Abbreviation processImage := (processImage image_cols image_rows detectFaces shapeBounds).
Local Abbreviation mainLoop := (mainLoop image_cols image_rows detectFaces shapeBounds).
Local Abbreviation main := (main image_cols image_rows detectFaces shapeBounds).
Local Abbreviation exportedRect :=
  (exportedRect image_cols image_rows detectFaces shapeBounds).
Local Abbreviation fallbackRect := (fallbackRect image_cols image_rows shapeBounds).
Local Abbreviation collectFaces := (collectFaces detectFaces).
Local Abbreviation consistent := (consistent detectFaces).
Local Abbreviation detectedAt := (detectedAt detectFaces).

Lemma processImage_count matchCV detectors inputs i rs n rs' n' :
  processImage matchCV detectors inputs i (rs, n) = Some (rs', n') ->
  n' = n + (if detectedAt detectors inputs i then 1 else 0).
Proof.
  unfold processImage, detectedAt, fallbackTaken.
  destruct (images inputs !! i) as [img|]; simpl; [|discriminate].
  destruct (shapes inputs !! i) as [s|]; simpl; [|discriminate].
  destruct (scalings inputs !! i) as [c|]; simpl; [|discriminate].
  destruct (bestCandidate s _) as [bestId bestOverlap]; simpl.
  destruct ((bestId =? SIZE_MAX) || F32.ltb bestOverlap F32.f0_3); simpl.
  - intros [= <- <-]. lia.
  - destruct (_ !! Z.to_nat bestId); simpl; [|discriminate]. intros [= <- <-]. lia.
Qed.

Lemma mainLoop_count matchCV detectors inputs n : forall i rs c out c',
  mainLoop matchCV detectors inputs n i (rs, c) = Some (out, c') ->
  c' = c + Z.of_nat (length (List.filter (detectedAt detectors inputs) (seq i n))).
Proof.
  induction n as [|n IH]; intros i rs c out c' H.
  - injection H as <- <-. simpl. lia.
  - rewrite mainLoop_S in H.
    destruct (processImage matchCV detectors inputs i (rs, c)) as [[rs1 c1]|] eqn:Hp;
      simpl in H; [|discriminate].
    apply processImage_count in Hp. apply IH in H. subst c1 c'.
    simpl seq. simpl List.filter.
    destruct (detectedAt detectors inputs i); simpl length; lia.
Qed.

(** [main] in one piece: it ends when every index has its rectangle. *)
Lemma main_characterised matchCV detectors inputs out cnt :
  main matchCV detectors inputs = Some (out, cnt) <->
  length out = length (rects inputs) /\
  (forall i, (i < length (rects inputs))%nat ->
     is_Some (out !! i) /\ out !! i = exportedRect matchCV detectors inputs i) /\
  cnt = Z.of_nat (length (List.filter (detectedAt detectors inputs)
                            (seq 0 (length (rects inputs))))).
Proof.
  split.
  - intros H. pose proof (main_exported _ _ _ _ _ _ _ _ _ H) as [Hlen Hout].
    split; [exact Hlen|]. split; [exact Hout|].
    unfold main in H. apply mainLoop_count in H. lia.
  - intros (Hlen & Hout & Hcnt).
    destruct (mainLoop_total image_cols image_rows detectFaces shapeBounds matchCV detectors
                inputs (length (rects inputs)) 0%nat (rects inputs, 0)) as [[out' cnt'] H'].
    { intros k Hk. destruct (Hout k ltac:(lia)) as [Hs Heq]. now rewrite <- Heq. }
    change (main matchCV detectors inputs = Some (out', cnt')) in H'.
    rewrite H'. f_equal. f_equal.
    + pose proof (main_exported _ _ _ _ _ _ _ _ _ H') as [Hlen' Hout'].
      apply list_eq. intros i. destruct (Nat.lt_ge_cases i (length (rects inputs))) as [Hi|Hi].
      * destruct (Hout i Hi) as [_ ->]. destruct (Hout' i Hi) as [_ ->]. reflexivity.
      * rewrite !lookup_ge_None_2 by lia. reflexivity.
    + unfold main in H'. apply mainLoop_count in H'. lia.
Qed.

(** The two branches of an iteration, by [detectedAt]. *)
Lemma main_branches_detected matchCV detectors inputs out cnt i img (s : Shape) c :
  main matchCV detectors inputs = Some (out, cnt) ->
  (i < length (rects inputs))%nat ->
  images inputs !! i = Some img -> shapes inputs !! i = Some s ->
  scalings inputs !! i = Some c ->
  if detectedAt detectors inputs i
  then exists f, f ∈ collectFaces detectors img /\ out !! i = Some (rect_div f c)
  else out !! i = Some (rect_div (fallbackRect matchCV img s) c).
Proof.
  intros Hmain Hi Himg Hs Hc.
  pose proof (main_branches _ _ _ _ _ _ _ _ _ _ _ _ _ Hmain Hi Himg Hs Hc) as Hbr.
  simpl in Hbr. unfold detectedAt. rewrite Himg, Hs.
  destruct (fallbackTaken s _); simpl; [exact Hbr|].
  destruct Hbr as (f & Hf & Hout). exists f. split; [|exact Hout].
  eapply list_elem_of_lookup_2; exact Hf.
Qed.

(** The loop ends on a consistent database, with the count of the
    accepted images. *)
Lemma main_ends matchCV detectors inputs :
  consistent detectors inputs ->
  exists out cnt, main matchCV detectors inputs = Some (out, cnt) /\
    cnt = Z.of_nat (length (List.filter (detectedAt detectors inputs)
                              (seq 0 (length (rects inputs))))).
Proof.
  intros Hcons.
  destruct (main_total image_cols image_rows detectFaces shapeBounds matchCV detectors
              inputs Hcons) as [[out cnt] Hmain].
  exists out, cnt. split; [exact Hmain|].
  exact (proj2 (proj2 (proj1 (main_characterised _ _ _ _ _) Hmain))).
Qed.

(** X7.  On a consistent database [countDetectionSuccess] ends as the
    number of images whose iteration takes the candidate branch, between 0
    and [rects.size()]; the rectangle of such an image is a candidate
    divided by the scaling, that of any other image is the fallback
    rectangle divided by the scaling. *)
Theorem countDetectionSuccess_counts matchCV detectors inputs :
  consistent detectors inputs ->
  exists out cnt, main matchCV detectors inputs = Some (out, cnt) /\
    cnt = Z.of_nat (length (List.filter (detectedAt detectors inputs)
                              (seq 0 (length (rects inputs))))) /\
    0 <= cnt <= Z.of_nat (length (rects inputs)) /\
    forall i img s c, (i < length (rects inputs))%nat ->
      images inputs !! i = Some img -> shapes inputs !! i = Some s ->
      scalings inputs !! i = Some c ->
      if detectedAt detectors inputs i
      then exists f, f ∈ collectFaces detectors img /\ out !! i = Some (rect_div f c)
      else out !! i = Some (rect_div (fallbackRect matchCV img s) c).
Proof.
  intros Hcons.
  destruct (main_ends matchCV detectors inputs Hcons) as (out & cnt & Hmain & Hcnt).
  exists out, cnt. split; [exact Hmain|].
  split; [exact Hcnt|]. split.
  - rewrite Hcnt. pose proof (filter_length_le (detectedAt detectors inputs)
                                (seq 0 (length (rects inputs)))) as Hle.
    rewrite length_seq in Hle. lia.
  - intros i img s c Hi Himg Hs Hc.
    exact (main_branches_detected _ _ _ _ _ _ _ _ _ Hmain Hi Himg Hs Hc).
Qed.

(** X8.  The imported rectangles are only overwritten: the result of the
    loop depends on [rects] through its size alone. *)
Theorem main_overwrites_rects matchCV detectors inputs (rs : list Rect) :
  length rs = length (rects inputs) ->
  main matchCV detectors (withRects inputs rs) = main matchCV detectors inputs.
Proof.
  intros Hlen.
  assert (Hsame : forall out cnt,
            main matchCV detectors inputs = Some (out, cnt) <->
            main matchCV detectors (withRects inputs rs) = Some (out, cnt)).
  { intros out cnt. rewrite !main_characterised. simpl. rewrite Hlen. reflexivity. }
  destruct (main matchCV detectors inputs) as [[out cnt]|].
  - now apply Hsame.
  - destruct (main matchCV detectors (withRects inputs rs)) as [[out cnt]|]; [|reflexivity].
    pose proof (proj2 (Hsame out cnt) eq_refl) as Habs. discriminate Habs.
Qed.

(** X9.  The match-OpenCV option changes neither the count of successful
    detections nor the rectangle of an image with an accepted candidate;
    without the option a fallback rectangle is [shapeBounds] of the shape
    divided by the scaling. *)
Theorem matchCV_only_affects_fallback detectors inputs :
  consistent detectors inputs ->
  exists outT outF cnt,
    main true detectors inputs = Some (outT, cnt) /\
    main false detectors inputs = Some (outF, cnt) /\
    forall i img s c, (i < length (rects inputs))%nat ->
      images inputs !! i = Some img -> shapes inputs !! i = Some s ->
      scalings inputs !! i = Some c ->
      if detectedAt detectors inputs i
      then outT !! i = outF !! i
      else outF !! i = Some (rect_div (shapeBounds s) c).
Proof.
  intros Hcons.
  destruct (main_ends true detectors inputs Hcons) as (outT & cntT & HT & HcT).
  destruct (main_ends false detectors inputs Hcons) as (outF & cntF & HF & HcF).
  exists outT, outF, cntT. split; [exact HT|]. split; [rewrite HF, HcT, HcF; reflexivity|].
  intros i img s c Hi Himg Hs Hc.
  pose proof (main_branches _ _ _ _ _ _ _ _ _ _ _ _ _ HT Hi Himg Hs Hc) as HbT.
  pose proof (main_branches _ _ _ _ _ _ _ _ _ _ _ _ _ HF Hi Himg Hs Hc) as HbF.
  simpl in HbT, HbF. unfold detectedAt. rewrite Himg, Hs.
  destruct (fallbackTaken s _); simpl.
  - exact HbF.
  - destruct HbT as (f & Hf & ->). destruct HbF as (f' & Hf' & ->). congruence.
Qed.

(** X10.  When the detectors return no candidate on any image (as with
    an empty list of detectors), every image gets its fallback rectangle
    and the count of successful detections is 0. *)
Theorem no_candidates_all_fallback matchCV detectors inputs :
  consistent detectors inputs ->
  (forall img, img ∈ images inputs -> collectFaces detectors img = []) ->
  exists out, main matchCV detectors inputs = Some (out, 0) /\
    forall i img s c, (i < length (rects inputs))%nat ->
      images inputs !! i = Some img -> shapes inputs !! i = Some s ->
      scalings inputs !! i = Some c ->
      out !! i = Some (rect_div (fallbackRect matchCV img s) c).
Proof.
  intros Hcons Hnone.
  destruct (main_ends matchCV detectors inputs Hcons) as (out & cnt & Hmain & Hcnt).
  pose proof (fun i img s c => main_branches_detected _ _ _ _ _ i img s c Hmain) as Hbr.
  assert (Hdet : forall i, detectedAt detectors inputs i = false).
  { intros i. unfold detectedAt.
    destruct (images inputs !! i) as [img|] eqn:Himg; [|reflexivity].
    destruct (shapes inputs !! i) as [s|]; [|reflexivity].
    rewrite (Hnone img) by (eapply list_elem_of_lookup_2; exact Himg). reflexivity. }
  assert (Hz : cnt = 0).
  { rewrite Hcnt. clear -Hdet. induction (seq 0 (length (rects inputs))) as [|i l IH];
      [reflexivity|]. simpl. rewrite Hdet. exact IH. }
  rewrite Hz in Hmain. exists out. split; [exact Hmain|].
  intros i img s c Hi Himg Hs Hc. specialize (Hbr i img s c Hi Himg Hs Hc).
  now rewrite Hdet in Hbr.
Qed.

(** X6.  If a candidate without infinite corner coordinates contains
    every landmark of the shape of image [i], the image counts as a
    successful detection and the exported rectangle is a candidate of
    overlap ratio at least [1.f], divided by the scaling. *)
Theorem full_cover_is_accepted matchCV detectors inputs i img (s : Shape) c f0 :
  consistent detectors inputs ->
  (i < length (rects inputs))%nat ->
  images inputs !! i = Some img -> shapes inputs !! i = Some s ->
  scalings inputs !! i = Some c ->
  f0 ∈ collectFaces detectors img ->
  cornersNotInf f0 = true ->
  validVector (rcol0 f0) = true -> validVector (rcol3 f0) = true ->
  Forall (fun p => validVector p = true) s ->
  0 < Z.of_nat (length s) < 2 ^ 31 ->
  (forall p, p ∈ s -> insideRect f0 p = true) ->
  exists out cnt fb, main matchCV detectors inputs = Some (out, cnt) /\
    detectedAt detectors inputs i = true /\
    fb ∈ collectFaces detectors img /\
    out !! i = Some (rect_div fb c) /\
    F32.leb F32.one (ratioRectShapeOverlap fb s) = true.
Proof.
  intros Hcons Hi Himg Hs Hc Hf0 Hinf V0 V3 Hvs Hlen Hall.
  assert (Hone : ratioRectShapeOverlap f0 s = F32.one).
  { destruct (ratio_as_quotient f0 s Hinf V0 V3 Hvs Hlen) as (Heq & _).
    rewrite Heq, (countInside_all f0 s Hall). apply ratio_full, Hlen. }
  destruct (main_total image_cols image_rows detectFaces shapeBounds matchCV detectors
              inputs Hcons) as [[out cnt] Hmain].
  pose proof (main_branches _ _ _ _ _ _ _ _ _ _ _ _ _ Hmain Hi Himg Hs Hc) as Hbr.
  simpl in Hbr.
  pose proof (bestCandidate_inv s (collectFaces detectors img)
                (consistent_faces _ _ _ _ _ Hcons Himg)) as Hinv.
  assert (Hdet : detectedAt detectors inputs i =
                 negb (fallbackTaken s (collectFaces detectors img)))
    by (unfold detectedAt; rewrite Himg, Hs; reflexivity).
  rewrite Hdet. clear Hdet.
  unfold fallbackTaken in *.
  destruct (bestCandidate s (collectFaces detectors img)) as [bestId bestOverlap].
  simpl in Hinv, Hbr.
  destruct Hinv as [(_ & _ & Hnone)|(Hr & (fb & Hfb & Hfbo) & H0 & Hmax & _)].
  { specialize (Hnone f0 Hf0). rewrite Hone in Hnone. discriminate. }
  assert (Hge : F32.leb F32.one bestOverlap = true).
  { apply leb_total; [now apply ltb_not_nan in H0|reflexivity|].
    specialize (Hmax f0 Hf0). now rewrite Hone in Hmax. }
  assert (Hno : (bestId =? SIZE_MAX) || F32.ltb bestOverlap F32.f0_3 = false).
  { apply orb_false_iff. split.
    - apply Z.eqb_neq. pose proof (consistent_faces _ _ _ _ _ Hcons Himg). lia.
    - destruct (F32.ltb bestOverlap F32.f0_3) eqn:Hlt; [|reflexivity].
      pose proof (leb_ltb_trans _ _ _ Hge Hlt) as Habs. discriminate Habs. }
  rewrite Hno in *. simpl. destruct Hbr as (f & Hf & Hout).
  rewrite Hfb in Hf. injection Hf as <-.
  exists out, cnt, fb. split; [exact Hmain|]. split; [reflexivity|].
  split; [eapply list_elem_of_lookup_2; exact Hfb|]. split; [exact Hout|].
  now rewrite Hfbo.
Qed.


End LoopFacts.

(** ** Two runs *)

Section RunsAgree.

Context {Image : Type}.
Variable image_cols image_rows : Image -> Z.
Variable shapeBounds : Shape -> Rect.



End RunsAgree.


Section Acceptance.

Context {Image FaceDetector : Type}.
Variable detectFaces : FaceDetector -> Image -> list Rect.

Local Abbreviation collectFaces := (collectFaces detectFaces).
Local Abbreviation consistent := (consistent detectFaces).
Local Abbreviation detectedAt := (detectedAt detectFaces).

(** X5.  For a shape of 1 to [2^24 - 1] landmarks and candidates without
    infinite corner coordinates, image [i] takes the candidate branch
    exactly when some candidate covers at least three tenths of the
    landmarks. *)
Theorem detected_iff_three_tenths detectors (inputs : InputData Image) i img (s : Shape) :
  consistent detectors inputs ->
  images inputs !! i = Some img -> shapes inputs !! i = Some s ->
  Forall (fun p => validVector p = true) s ->
  0 < Z.of_nat (length s) < 2 ^ 24 ->
  (forall f, f ∈ collectFaces detectors img ->
     cornersNotInf f = true /\ validVector (rcol0 f) = true /\ validVector (rcol3 f) = true) ->
  (detectedAt detectors inputs i = true <->
   exists f, f ∈ collectFaces detectors img /\
             3 * Z.of_nat (length s) <= 10 * countInside f s).
Proof.
  intros Hcons Himg Hs Hvs Hlen Hfaces.
  assert (Hdet : detectedAt detectors inputs i =
                 negb (fallbackTaken s (collectFaces detectors img)))
    by (unfold detectedAt; rewrite Himg, Hs; reflexivity).
  rewrite Hdet, negb_true_iff. clear Hdet.
  assert (Hthr : forall f, f ∈ collectFaces detectors img ->
            F32.ltb (ratioRectShapeOverlap f s) F32.f0_3 =
            (10 * countInside f s <? 3 * Z.of_nat (length s))).
  { intros f Hf. destruct (Hfaces f Hf) as (Hinf & V0 & V3).
    destruct (ratio_as_quotient f s Hinf V0 V3 Hvs ltac:(lia)) as (Heq & Hc).
    rewrite Heq. apply ratio_lt_f0_3; lia. }
  pose proof (bestCandidate_inv s (collectFaces detectors img)
                (consistent_faces _ _ _ _ _ Hcons Himg)) as Hinv.
  unfold fallbackTaken.
  destruct (bestCandidate s (collectFaces detectors img)) as [bestId bestOverlap].
  simpl in Hinv. rewrite orb_false_iff, Z.eqb_neq. split.
  - intros [Hne Hok].
    destruct Hinv as [(? & _)|(_ & (fb & Hfb & Hfbo) & _)]; [contradiction|].
    apply list_elem_of_lookup_2 in Hfb. exists fb. split; [exact Hfb|].
    specialize (Hthr fb Hfb). rewrite Hfbo, Hok in Hthr. symmetry in Hthr.
    apply Z.ltb_ge in Hthr. exact Hthr.
  - intros (f & Hf & Hcover).
    destruct (Hfaces f Hf) as (Hinf & V0 & V3).
    destruct (ratio_as_quotient f s Hinf V0 V3 Hvs ltac:(lia)) as (Heq & Hc).
    assert (Hpos : F32.ltb F32.zero (ratioRectShapeOverlap f s) = true).
    { rewrite Heq, ratio_positive by lia. apply Z.ltb_lt. lia. }
    assert (Hf3 : F32.ltb (ratioRectShapeOverlap f s) F32.f0_3 = false).
    { rewrite (Hthr f Hf). apply Z.ltb_ge. lia. }
    destruct Hinv as [(_ & _ & Hnone)|(Hr & _ & H0 & Hmax & _)].
    { rewrite (Hnone f Hf) in Hpos. discriminate. }
    split.
    + pose proof (consistent_faces _ _ _ _ _ Hcons Himg). lia.
    + destruct (F32.ltb bestOverlap F32.f0_3) eqn:Hlt; [|reflexivity].
      assert (Hle : F32.leb (ratioRectShapeOverlap f s) bestOverlap = true).
      { apply leb_total; [now apply ltb_not_nan in H0|now apply ltb_not_nan in Hpos|].
        now apply Hmax. }
      rewrite (leb_ltb_trans _ _ _ Hle Hlt) in Hf3. discriminate.
Qed.

End Acceptance.

Section ScalingAndTransform.

Context {Image FaceDetector : Type}.
Variable image_cols image_rows : Image -> Z.
Variable detectFaces : FaceDetector -> Image -> list Rect.
Variable shapeBounds : Shape -> Rect.

Local Abbreviation main := (main image_cols image_rows detectFaces shapeBounds).
Local Abbreviation fallbackRect := (fallbackRect image_cols image_rows shapeBounds).
Local Abbreviation collectFaces := (collectFaces detectFaces).
Local Abbreviation consistent := (consistent detectFaces).
Local Abbreviation detectedAt := (detectedAt detectFaces).

(** X11.  With a scaling factor of [1.f] the exported rectangle is the
    selected candidate, or the fallback rectangle, itself: dividing a
    binary32 number by [1.f] gives it back. *)
Theorem unit_scaling_exports_unchanged matchCV detectors inputs i img (s : Shape) :
  consistent detectors inputs ->
  (i < length (rects inputs))%nat ->
  images inputs !! i = Some img -> shapes inputs !! i = Some s ->
  scalings inputs !! i = Some F32.one ->
  (forall f, f ∈ collectFaces detectors img -> validRect f = true) ->
  validRect (fallbackRect matchCV img s) = true ->
  exists out cnt, main matchCV detectors inputs = Some (out, cnt) /\
    if detectedAt detectors inputs i
    then exists f, f ∈ collectFaces detectors img /\ out !! i = Some f
    else out !! i = Some (fallbackRect matchCV img s).
Proof.
  intros Hcons Hi Himg Hs Hc Hfaces Hfb.
  destruct (main_ends image_cols image_rows detectFaces shapeBounds
              matchCV detectors inputs Hcons) as (out & cnt & Hmain & _).
  exists out, cnt. split; [exact Hmain|].
  pose proof (main_branches_detected image_cols image_rows detectFaces shapeBounds
                _ _ _ _ _ _ _ _ _ Hmain Hi Himg Hs Hc) as Hbr.
  destruct (detectedAt detectors inputs i).
  - destruct Hbr as (f & Hf & Hout). exists f. split; [exact Hf|].
    now rewrite Hout, rect_div_one by (apply Hfaces, Hf).
  - now rewrite Hbr, rect_div_one.
Qed.

(** X12.  For an image of positive width and height below [2^31] and
    bounds without NaN or infinite coefficient, the match-OpenCV transform
    sends a corner [(x, y)] to [(1.25f * x + tx, 1.25f * y + ty)]: the zero
    entries of the matrix do not contribute. *)
Theorem fallback_transform_finite (img : Image) (s : Shape) :
  0 < image_cols img < 2 ^ 31 -> 0 < image_rows img < 2 ^ 31 ->
  finiteRect (shapeBounds s) = true ->
  let tx := F32.mul F32.fm0_01 (F32.of_Z (image_cols img)) in
  let ty := F32.mul F32.fm0_05 (F32.of_Z (image_rows img)) in
  fallbackRect true img s =
  rect_map (fun p => (F32.add (F32.mul F32.f1_25 (fst p)) tx,
                      F32.add (F32.mul F32.f1_25 (snd p)) ty)) (shapeBounds s).
Proof.
  intros Hc Hr Hfin tx ty.
  assert (Htx : is_zero tx = false)
    by (eapply translation_not_zero; [reflexivity|lia|exact Hc]).
  assert (Hty : is_zero ty = false)
    by (eapply translation_not_zero; [reflexivity|lia|exact Hr]).
  unfold fallbackRect, affine_apply, rect_map, affine_apply_col,
    translation_times_scaling, scaleToCV, txToCV, tyToCV.
  cbn [a00 a01 a02 a10 a11 a12]. fold tx ty.
  unfold finiteRect, finiteVector in Hfin. rewrite !andb_true_iff in Hfin.
  destruct Hfin as [[[[H0 H0'] [H1 H1']] [H2 H2']] [H3 H3']].
  now rewrite !add_zero_term_r, !add_zero_term_l by assumption.
Qed.

End ScalingAndTransform.

(** ** The fallback rectangle with the match-OpenCV option *)

Section MatchOpenCV.

Context {Image FaceDetector : Type}.
Variable image_cols image_rows : Image -> Z.
Variable detectFaces : FaceDetector -> Image -> list Rect.
Variable shapeBounds : Shape -> Rect.

Local Abbreviation main := (main image_cols image_rows detectFaces shapeBounds).
Local Abbreviation collectFaces := (collectFaces detectFaces).
Local Abbreviation consistent := (consistent detectFaces).


End MatchOpenCV.



(** The width and the height have to be positive as well: for an image
    of width 0 the translation in [x] is [-0], and a corner with [x = -0]
    is exported with [x = +0], where scaling and translating gives [-0]. *)
Lemma fallback_zero_width_sign :
  let tx := F32.mul F32.fm0_01 (F32.of_Z 0) in
  F32.div (F32.add (F32.mul F32.f1_25 (S754_zero true)) tx) F32.one = S754_zero true /\
  exists out r, run true silentDetectors inputsFlat = Some (out, 0) /\
    out !! 0%nat = Some r /\ fst (rcol0 r) = S754_zero false.
Proof.
  cbv zeta. split; [vm_compute; reflexivity|].
  eexists _, _. split; [vm_compute; reflexivity|]. split; [reflexivity|].
  vm_compute. reflexivity.
Qed.

(** ** The program around the loop *)

Section ProgramFacts.

Context {Image FaceDetector Path : Type}.
Variable image_cols image_rows : Image -> Z.
Variable detectFaces : FaceDetector -> Image -> list Rect.
Variable shapeBounds : Shape -> Rect.
Variable importDatabase : Path -> Z -> option (InputData Image).
Variable loadClassifiers : Path -> option FaceDetector.

Local Abbreviation loadDetectors := (loadDetectors loadClassifiers).
Local Abbreviation program :=
  (program image_cols image_rows detectFaces shapeBounds importDatabase loadClassifiers).

Lemma loadDetectors_inl names ds :
  loadDetectors names = inl ds <-> Forall2 (fun name d => loadClassifiers name = Some d) names ds.
Proof.
  revert ds. induction names as [|name rest IH]; intros ds; simpl.
  - split.
    + intros [= <-]. constructor.
    + intros H. inversion H. reflexivity.
  - destruct (loadClassifiers name) as [d|] eqn:Hd.
    + destruct (loadDetectors rest) as [ds'|failed].
      * split.
        -- intros [= <-]. constructor; [exact Hd|]. now apply IH.
        -- intros H. inversion H as [|? d' ? ds'' Hd' Hrest]; subst.
           rewrite Hd in Hd'. injection Hd' as <-. apply IH in Hrest. congruence.
      * split; [discriminate|].
        intros H. inversion H as [|? d' ? ds'' Hd' Hrest]; subst.
        apply IH in Hrest. discriminate.
    + split; [discriminate|]. intros H. inversion H; subst. congruence.
Qed.

Lemma loadDetectors_inr names failed :
  loadDetectors names = inr failed <->
  exists pre post, names = pre ++ failed :: post /\
    Forall (fun name => is_Some (loadClassifiers name)) pre /\
    loadClassifiers failed = None.
Proof.
  induction names as [|name rest IH]; simpl.
  - split; [discriminate|]. intros (pre & post & H & _). destruct pre; discriminate.
  - destruct (loadClassifiers name) as [d|] eqn:Hd.
    + destruct (loadDetectors rest) as [ds'|failed'].
      * split; [discriminate|].
        intros (pre & post & H & Hpre & Hf).
        destruct pre as [|p pre]; simpl in H; injection H as -> ->; [congruence|].
        apply Forall_cons in Hpre as [_ Hpre].
        assert (Habs : @inl (list FaceDetector) Path ds' = inr failed)
          by (apply IH; eauto). discriminate.
      * split.
        -- intros [= ->]. destruct (proj1 IH eq_refl) as (pre & post & -> & Hpre & Hf).
           exists (name :: pre), post. repeat split; [|exact Hf].
           constructor; [rewrite Hd; eauto|exact Hpre].
        -- intros (pre & post & H & Hpre & Hf).
           destruct pre as [|p pre]; simpl in H; injection H as -> ->; [congruence|].
           apply Forall_cons in Hpre as [_ Hpre]. apply IH. eauto.
    + split.
      * intros [= ->]. exists [], rest. repeat split; [constructor|exact Hd].
      * intros (pre & post & H & Hpre & Hf).
        destruct pre as [|p pre]; simpl in H; injection H as -> ->; [reflexivity|].
        apply Forall_cons in Hpre as [[d Hd'] _]. congruence.
Qed.

(** X13.  [main] reports a failed database exactly when the import fails;
    it reports a classifier exactly when the import succeeds and this is
    the first classifier, in command-line order, that fails to load; it
    exports, to the output path of the options, exactly when the import
    and every load succeed and the loop ends, with the rectangles and the
    count of the loop; on a consistent database the loop ends, so that the
    program exports as soon as the import and every load succeed.  The
    exit code is 0 when it exports and -1 in the two cases of failure. *)
Theorem program_outcome (opts : Options Path) :
  let imported := importDatabase (opt_db opts) (opt_maxImageSideLength opts) in
  let loaded := fun name d => loadClassifiers name = Some d in
  (program opts = Some DatabaseFailed <-> imported = None) /\
  (forall name, program opts = Some (DetectorFailed name) <->
     exists inputs pre post,
       imported = Some inputs /\
       opt_detectors opts = pre ++ name :: post /\
       Forall (fun name => is_Some (loadClassifiers name)) pre /\
       loadClassifiers name = None) /\
  (forall output rects cnt, program opts = Some (Exported output rects cnt) <->
     exists inputs detectors,
       imported = Some inputs /\
       Forall2 loaded (opt_detectors opts) detectors /\
       main image_cols image_rows detectFaces shapeBounds (opt_matchCV opts) detectors inputs
         = Some (rects, cnt) /\
       output = opt_output opts) /\
  (forall inputs detectors,
     imported = Some inputs -> Forall2 loaded (opt_detectors opts) detectors ->
     consistent detectFaces detectors inputs ->
     exists rects cnt, program opts = Some (Exported (opt_output opts) rects cnt)) /\
  (forall o, program opts = Some o ->
     (exitCode o = 0 /\ exists output rects cnt, o = Exported output rects cnt) \/
     (exitCode o = -1 /\ (o = DatabaseFailed \/ exists name, o = DetectorFailed name))).
Proof.
  cbv zeta. unfold program. split; [|split; [|split; [|split]]].
  - split.
    + destruct (importDatabase _ _) as [inputs|]; [|reflexivity].
      destruct (loadDetectors _) as [ds|name]; [|discriminate].
      destruct (main _ _ _ _ _ _ _) as [[rs c]|]; discriminate.
    + intros ->. reflexivity.
  - intros name. split.
    + destruct (importDatabase _ _) as [inputs|]; [|discriminate].
      destruct (loadDetectors _) as [ds|failed] eqn:Hl.
      * destruct (main _ _ _ _ _ _ _) as [[rs c]|]; discriminate.
      * intros [= ->]. apply loadDetectors_inr in Hl as (pre & post & H). eauto.
    + intros (inputs & pre & post & -> & Hn & Hpre & Hf).
      assert (Hl : loadDetectors (opt_detectors opts) = inr name)
        by (apply loadDetectors_inr; eauto).
      now rewrite Hl.
  - intros output rs cnt. split.
    + destruct (importDatabase _ _) as [inputs|]; [|discriminate].
      destruct (loadDetectors _) as [ds|failed] eqn:Hl; [|discriminate].
      destruct (main _ _ _ _ _ _ _) as [[rs' c]|] eqn:Hm; [|discriminate].
      simpl. intros [= <- <- <-]. exists inputs, ds. repeat split; [|exact Hm].
      now apply loadDetectors_inl.
    + intros (inputs & ds & -> & Hl & Hm & ->). apply loadDetectors_inl in Hl.
      rewrite Hl, Hm. reflexivity.
  - intros inputs ds -> Hl Hcons. apply loadDetectors_inl in Hl. rewrite Hl.
    destruct (main_total image_cols image_rows detectFaces shapeBounds (opt_matchCV opts)
                ds inputs Hcons) as [[rs cnt] Hm].
    rewrite Hm. simpl. eauto.
  - intros o _. destruct o as [|name|output rs cnt]; simpl.
    + right. split; [reflexivity|]. now left.
    + right. split; [reflexivity|]. right. now exists name.
    + left. split; [reflexivity|]. now exists output, rs, cnt.
Qed.

End ProgramFacts.

(** ** Instances on the example database *)

Lemma ratio_positive_iff_landmark_inside_witness :
  (F32.ltb F32.zero (ratioRectShapeOverlap faceGood shapeA) = true <->
     exists p, p ∈ shapeA /\ insideRect faceGood p = true) /\
  ((forall p, p ∈ shapeA -> insideRect faceGood p = false) ->
   ratioRectShapeOverlap faceGood shapeA = F32.zero).
Proof.
  apply (ratio_positive_iff_landmark_inside faceGood shapeA).
  - reflexivity.
  - reflexivity.
  - reflexivity.
  - repeat constructor.
  - simpl; lia.
Defined.

Lemma ratio_one_when_all_inside_witness :
  ratioRectShapeOverlap faceBetter shapeA = F32.one.
Proof.
  apply (ratio_one_when_all_inside faceBetter shapeA).
  - reflexivity.
  - reflexivity.
  - reflexivity.
  - repeat constructor.
  - simpl; lia.
  - intros p Hp. apply list_elem_of_In in Hp. vm_compute in Hp.
    repeat (destruct Hp as [<-|Hp]; [reflexivity|]). destruct Hp.
Defined.

Lemma ratio_below_threshold_iff_witness :
  F32.ltb (ratioRectShapeOverlap faceWeak shapeA) F32.f0_3 =
  (10 * countInside faceWeak shapeA <? 3 * Z.of_nat (length shapeA)).
Proof.
  apply (ratio_below_threshold_iff faceWeak shapeA).
  - reflexivity.
  - reflexivity.
  - reflexivity.
  - repeat constructor.
  - simpl; lia.
Defined.

Lemma detected_iff_three_tenths_witness :
  detectedAt detect detectorsA inputsA 0 = true <->
  exists f, f ∈ collectFaces detect detectorsA (640, 480) /\
            3 * Z.of_nat (length shapeA) <= 10 * countInside f shapeA.
Proof.
  apply (detected_iff_three_tenths detect detectorsA inputsA 0%nat (640, 480) shapeA).
  - repeat split; try (simpl; lia). intros img _. vm_compute. discriminate.
  - reflexivity.
  - reflexivity.
  - repeat constructor.
  - simpl; lia.
  - intros f Hf. apply list_elem_of_In in Hf. vm_compute in Hf.
    repeat (destruct Hf as [<-|Hf]; [repeat split; reflexivity|]). destruct Hf.
Defined.

Lemma full_cover_is_accepted_witness :
  exists out cnt fb, run true detectorsA inputsA = Some (out, cnt) /\
    detectedAt detect detectorsA inputsA 0 = true /\
    fb ∈ collectFaces detect detectorsA (640, 480) /\
    out !! 0%nat = Some (rect_div fb (F32.of_Z 2)) /\
    F32.leb F32.one (ratioRectShapeOverlap fb shapeA) = true.
Proof.
  apply (full_cover_is_accepted cols rows detect tightBounds true detectorsA inputsA
           0%nat (640, 480) shapeA (F32.of_Z 2) faceBetter).
  - repeat split; try (simpl; lia). intros img _. vm_compute. discriminate.
  - simpl; lia.
  - reflexivity.
  - reflexivity.
  - reflexivity.
  - apply list_elem_of_In. vm_compute. auto.
  - reflexivity.
  - reflexivity.
  - reflexivity.
  - repeat constructor.
  - simpl; lia.
  - intros p Hp. apply list_elem_of_In in Hp. vm_compute in Hp.
    repeat (destruct Hp as [<-|Hp]; [reflexivity|]). destruct Hp.
Defined.

Lemma countDetectionSuccess_counts_witness :
  exists out cnt, run true detectorsA inputsA = Some (out, cnt) /\
    cnt = Z.of_nat (length (List.filter (detectedAt detect detectorsA inputsA)
                              (seq 0 (length (rects inputsA))))) /\
    0 <= cnt <= Z.of_nat (length (rects inputsA)) /\
    forall i img s c, (i < length (rects inputsA))%nat ->
      images inputsA !! i = Some img -> shapes inputsA !! i = Some s ->
      scalings inputsA !! i = Some c ->
      if detectedAt detect detectorsA inputsA i
      then exists f, f ∈ collectFaces detect detectorsA img /\ out !! i = Some (rect_div f c)
      else out !! i = Some (rect_div (fallbackRect cols rows tightBounds true img s) c).
Proof.
  apply (countDetectionSuccess_counts cols rows detect tightBounds true detectorsA inputsA).
  repeat split; try (simpl; lia). intros img _. vm_compute. discriminate.
Defined.

Lemma main_overwrites_rects_witness :
  run true detectorsA (withRects inputsA [faceOff; faceWeak; faceGood]) =
  run true detectorsA inputsA.
Proof.
  apply (main_overwrites_rects cols rows detect tightBounds true detectorsA inputsA
           [faceOff; faceWeak; faceGood]).
  reflexivity.
Defined.

Lemma matchCV_only_affects_fallback_witness :
  exists outT outF cnt,
    run true detectorsA inputsA = Some (outT, cnt) /\
    run false detectorsA inputsA = Some (outF, cnt) /\
    forall i img s c, (i < length (rects inputsA))%nat ->
      images inputsA !! i = Some img -> shapes inputsA !! i = Some s ->
      scalings inputsA !! i = Some c ->
      if detectedAt detect detectorsA inputsA i
      then outT !! i = outF !! i
      else outF !! i = Some (rect_div (tightBounds s) c).
Proof.
  apply (matchCV_only_affects_fallback cols rows detect tightBounds detectorsA inputsA).
  repeat split; try (simpl; lia). intros img _. vm_compute. discriminate.
Defined.

Lemma no_candidates_all_fallback_witness :
  exists out, run true silentDetectors inputsA = Some (out, 0) /\
    forall i img s c, (i < length (rects inputsA))%nat ->
      images inputsA !! i = Some img -> shapes inputsA !! i = Some s ->
      scalings inputsA !! i = Some c ->
      out !! i = Some (rect_div (fallbackRect cols rows tightBounds true img s) c).
Proof.
  apply (no_candidates_all_fallback cols rows detect tightBounds true silentDetectors inputsA).
  - repeat split; try (simpl; lia). intros img _. vm_compute. discriminate.
  - intros img _. reflexivity.
Defined.

Lemma unit_scaling_exports_unchanged_witness :
  exists out cnt, run true detectorsA inputsA = Some (out, cnt) /\
    if detectedAt detect detectorsA inputsA 1
    then exists f, f ∈ collectFaces detect detectorsA (320, 240) /\ out !! 1%nat = Some f
    else out !! 1%nat = Some (fallbackRect cols rows tightBounds true (320, 240) shapeA).
Proof.
  apply (unit_scaling_exports_unchanged cols rows detect tightBounds true detectorsA inputsA
           1%nat (320, 240) shapeA).
  - repeat split; try (simpl; lia). intros img _. vm_compute. discriminate.
  - simpl; lia.
  - reflexivity.
  - reflexivity.
  - reflexivity.
  - intros f Hf. apply list_elem_of_In in Hf. vm_compute in Hf.
    repeat (destruct Hf as [<-|Hf]; [reflexivity|]). destruct Hf.
  - vm_compute. reflexivity.
Defined.

Lemma fallback_transform_finite_witness :
  let tx := F32.mul F32.fm0_01 (F32.of_Z 640) in
  let ty := F32.mul F32.fm0_05 (F32.of_Z 480) in
  fallbackRect cols rows tightBounds true (640, 480) shapeA =
  rect_map (fun p => (F32.add (F32.mul F32.f1_25 (fst p)) tx,
                      F32.add (F32.mul F32.f1_25 (snd p)) ty)) (tightBounds shapeA).
Proof.
  apply (fallback_transform_finite cols rows tightBounds (640, 480) shapeA).
  - simpl; lia.
  - simpl; lia.
  - vm_compute. reflexivity.
Defined.
